(** * TrieVisualiser: the trie of [src/App.jsx] and [src/components/Trie.js]

    A shallow embedding of the two [Trie] classes of the repository (the
    one embedded in the application file and the standalone component
    module), of the [TrieNode] class they share, and of the export to the
    D3 hierarchy, followed by the properties the specification states
    about them.

    Modelling choices.
    - A JavaScript string is its sequence of UTF-16 code units.  The
      string iterator used by [for (const char of word)] yields code
      points (a well-formed surrogate pair is one element), whereas
      [word[depth]] and [word.length] work on code units; both views are
      modelled.
    - [node.children] is a JavaScript [Map]: keys are unique and
      [entries()] enumerates them in insertion order, which the export
      observes.  It is modelled as an association list kept in insertion
      order.
    - The classes mutate nodes in place.  The embedding passes the state
      explicitly: a function that mutates the node it is given returns
      the updated node, and the caller writes it back under the same key
      (which keeps the key's position, as mutation in place does).
    - [String.prototype.toLowerCase] is a built-in of the language, not
      code of the repository: the application's trie is parameterised by
      it. *)

From Stdlib Require Import String Ascii.
From Stdlib Require Import List ZArith Bool Arith Lia.
From Equations Require Import Equations.
Import ListNotations.

Set Implicit Arguments.
Set Warnings "-register-all".

(** ** JavaScript strings *)

(** A UTF-16 code unit is an integer in [0, 65535]. *)
Abbreviation code_unit := Z (only parsing).

Definition jsstring := list code_unit.

Definition jsstring_eq_dec : forall a b : jsstring, {a = b} + {a <> b} :=
  list_eq_dec Z.eq_dec.

Definition jsstring_eqb (a b : jsstring) : bool :=
  if jsstring_eq_dec a b then true else false.

(** An ASCII literal as a JavaScript string. *)
Definition str (s : string) : jsstring :=
  map (fun c => Z.of_N (N_of_ascii c)) (list_ascii_of_string s).

Definition isLeadingSurrogate (u : code_unit) : bool :=
  ((55296 <=? u) && (u <=? 56319))%Z.

Definition isTrailingSurrogate (u : code_unit) : bool :=
  ((56320 <=? u) && (u <=? 57343))%Z.

(** The elements produced by the string iterator ([for ... of] over a
    string): one string per code point.  A leading surrogate followed by
    a trailing surrogate is a single element of two code units; any other
    code unit is an element of its own. *)
Fixpoint codePoints (s : jsstring) : list jsstring :=
  match s with
  | [] => []
  | u :: rest =>
      match rest with
      | v :: rest' =>
          if isLeadingSurrogate u && isTrailingSurrogate v
          then [u; v] :: codePoints rest'
          else [u] :: codePoints rest
      | [] => [[u]]
      end
  end.

(** A lower-casing function that maps the letters A-Z to a-z and leaves
    every other code unit alone.  It agrees with
    [String.prototype.toLowerCase] on every string whose code units
    outside A-Z are not affected by the Unicode lower-case mapping, and is
    the instance at which the concrete examples are evaluated. *)
Definition asciiLower (s : jsstring) : jsstring :=
  map (fun u => if ((65 <=? u) && (u <=? 90))%Z then (u + 32)%Z else u) s.

(** [inspect a] keeps the equation between [a] and the pattern it is
    matched against, for the termination argument of recursive calls. *)
Definition inspect {A : Type} (a : A) : {b : A | a = b} := exist _ a eq_refl.

(** ** JavaScript values passed as [word]

    [JSNumber] carries the integer-valued numbers and [JSObject] stands
    for any object; the methods tell neither from the other values that
    are not strings. *)

Inductive JSValue : Type :=
| JSUndefined
| JSNull
| JSBoolean (b : bool)
| JSNumber (n : Z)
| JSString (s : jsstring)
| JSObject.

(** [typeof v]. *)
Definition typeof (v : JSValue) : jsstring :=
  match v with
  | JSUndefined => str "undefined"
  | JSNull => str "object"
  | JSBoolean _ => str "boolean"
  | JSNumber _ => str "number"
  | JSString _ => str "string"
  | JSObject => str "object"
  end.

(** The truthiness of a value, as tested by [!v] and [v || ...]. *)
Definition toBoolean (v : JSValue) : bool :=
  match v with
  | JSUndefined => false
  | JSNull => false
  | JSBoolean b => b
  | JSNumber n => negb (n =? 0)%Z
  | JSString s => match s with [] => false | _ :: _ => true end
  | JSObject => true
  end.

(** The outcome of a method call: a returned value or a thrown [Error]
    with its message. *)
Inductive completion (A : Type) : Type :=
| Return (a : A)
| Throw (message : jsstring).

Arguments Return {A} a.
Arguments Throw {A} message.

(** ** [Map] with string keys, in insertion order *)

Module JsMap.
Section Ops.
Variable V : Type.

Definition t := list (jsstring * V).

Definition empty : t := [].

Fixpoint get (key : jsstring) (m : t) : option V :=
  match m with
  | [] => None
  | (k, v) :: m' => if jsstring_eq_dec key k then Some v else get key m'
  end.

Definition has (key : jsstring) (m : t) : bool :=
  match get key m with Some _ => true | None => false end.

(** [m.set(key, v)]: an existing key keeps its position, a new key is
    appended. *)
Fixpoint set (key : jsstring) (v : V) (m : t) : t :=
  match m with
  | [] => [(key, v)]
  | (k, v') :: m' =>
      if jsstring_eq_dec key k then (k, v) :: m' else (k, v') :: set key v m'
  end.

Fixpoint delete (key : jsstring) (m : t) : t :=
  match m with
  | [] => []
  | (k, v) :: m' =>
      if jsstring_eq_dec key k then delete key m' else (k, v) :: delete key m'
  end.

Definition size (m : t) : nat := length m.

Definition entries (m : t) : list (jsstring * V) := m.
End Ops.
End JsMap.

(** ** [TrieNode] (identical in [App.jsx] and [components/TrieNode.js]) *)

Inductive TrieNode : Type :=
  mkTrieNode {
    value : jsstring;
    isEndOfWord : bool;
    frequency : Z;
    children : list (jsstring * TrieNode)
  }.

(** [new TrieNode(value)]; the default argument is the empty string. *)
Definition newTrieNode (value : jsstring) : TrieNode :=
  mkTrieNode value false 0%Z (JsMap.empty TrieNode).

(** The fields of a [Trie] object. *)
Record Trie : Type := mkTrie { root : TrieNode; wordCount : Z }.

(** [new Trie()]. *)
Definition newTrie : Trie := mkTrie (newTrieNode []) 0%Z.

(** Field updates of a node, the other fields kept. *)
Definition setChildren (node : TrieNode) (c : list (jsstring * TrieNode)) : TrieNode :=
  mkTrieNode (value node) (isEndOfWord node) (frequency node) c.

(** ** The record produced by [getD3Data]

    The fields [name], [value], [isEndOfWord], [frequency], [depth] and
    [children] of the object literal, prefixed to keep them apart from the
    fields of [TrieNode]. *)

Inductive D3Node : Type :=
  mkD3Node {
    d3_name : jsstring;
    d3_value : jsstring;
    d3_isEndOfWord : bool;
    d3_frequency : Z;
    d3_depth : nat;
    d3_children : option (list D3Node)   (* [None] is [undefined] *)
  }.

(** [node.value || 'root']. *)
Definition valueOrRoot (v : jsstring) : jsstring :=
  if toBoolean (JSString v) then v else str "root".

(** ** The trie of [src/components/Trie.js]

    The methods are embedded for string arguments; the class performs no
    validation of its own. *)

Module TrieJs.

(** [markEnd] is the tail of [insert], after the loop: [current] is the
    node the loop stopped at. *)
Definition markEnd (current : TrieNode) (wordCount : Z) : TrieNode * Z :=
  let wordCount' :=
    if negb (isEndOfWord current) then (wordCount + 1)%Z else wordCount in
  (mkTrieNode (value current) true (frequency current + 1)%Z (children current),
   wordCount').

(** The loop of [insert] from the node [current] over the remaining
    elements [chars] of the iteration, followed by the tail. *)
Fixpoint insertFrom (current : TrieNode) (chars : list jsstring) (wordCount : Z)
  : TrieNode * Z :=
  match chars with
  | [] => markEnd current wordCount
  | char :: rest =>
      let children1 :=
        if negb (JsMap.has char (children current))
        then JsMap.set char (newTrieNode char) (children current)
        else children current in
      match JsMap.get char children1 with
      | Some next =>
          let (next', wordCount') := insertFrom next rest wordCount in
          (setChildren current (JsMap.set char next' children1), wordCount')
      | None => (setChildren current children1, wordCount)   (* not reached: [char] is a key of [children1] *)
      end
  end.

Definition insert (this : Trie) (word : jsstring) : Trie * bool :=
  let (root', wordCount') :=
    insertFrom (root this) (codePoints word) (wordCount this) in
  (mkTrie root' wordCount', true).

(** The loop of [search] from the node [current]. *)
Fixpoint searchFrom (current : TrieNode) (chars : list jsstring) : bool :=
  match chars with
  | [] => isEndOfWord current
  | char :: rest =>
      if negb (JsMap.has char (children current)) then false
      else match JsMap.get char (children current) with
           | Some next => searchFrom next rest
           | None => false
           end
  end.

Definition search (this : Trie) (word : jsstring) : bool :=
  searchFrom (root this) (codePoints word).

(** [deleteRecursive(node, word, depth)]: the returned triple is the
    boolean the closure returns, the node after its mutation and
    [this.wordCount] after the call.  [word[depth]] is a single code
    unit. *)
Equations? deleteRecursive (node : TrieNode) (word : jsstring) (depth : nat)
  (wordCount : Z) : bool * TrieNode * Z by wf (length word - depth) lt :=
deleteRecursive node word depth wordCount with Nat.eq_dec depth (length word) := {
  | left _ =>
      if negb (isEndOfWord node) then (false, node, wordCount)
      else (Nat.eqb (JsMap.size (children node)) 0,
            mkTrieNode (value node) false (frequency node - 1)%Z (children node),
            (wordCount - 1)%Z)
  | right _ with inspect (nth_error word depth) := {
    | exist _ None _ => (false, node, wordCount)   (* not reached: [depth] never exceeds [word.length] *)
    | exist _ (Some unit) _ =>
        let char := [unit] in
        if negb (JsMap.has char (children node)) then (false, node, wordCount)
        else match JsMap.get char (children node) with
             | None => (false, node, wordCount)
             | Some child =>
                 let '(shouldDeleteCurrentNode, child', wordCount') :=
                   deleteRecursive child word (depth + 1) wordCount in
                 if shouldDeleteCurrentNode
                 then
                   let children' := JsMap.delete char (children node) in
                   (Nat.eqb (JsMap.size children') 0 && negb (isEndOfWord node),
                    setChildren node children', wordCount')
                 else
                   (false,
                    setChildren node (JsMap.set char child' (children node)),
                    wordCount')
             end } }.
Proof.
  assert (depth < length word) by (apply nth_error_Some; congruence). lia.
Qed.

Definition delete (this : Trie) (word : jsstring) : Trie * bool :=
  let '(_, root', wordCount') :=
    deleteRecursive (root this) word 0 (wordCount this) in
  (mkTrie root' wordCount', true).

Fixpoint convertToD3Format (node : TrieNode) (parentName : jsstring) (depth : nat)
  : D3Node :=
  let nodeName := parentName ++ valueOrRoot (value node) in
  let children :=
    map (fun entry : jsstring * TrieNode =>
           let (_, childNode) := entry in
           convertToD3Format childNode nodeName (depth + 1))
        (JsMap.entries (children node)) in
  mkD3Node nodeName (value node) (isEndOfWord node) (frequency node) depth
    (match length children with O => None | S _ => Some children end).

Definition getD3Data (this : Trie) : D3Node :=
  convertToD3Format (root this) [] 0.

End TrieJs.

(** ** The trie of [src/App.jsx] *)

Module App.
Section WithToLowerCase.

(** [String.prototype.toLowerCase], on code-unit sequences. *)
Variable toLowerCase : jsstring -> jsstring.

Definition invalidInput : jsstring :=
  str "Invalid input: Word must be a non-empty string".

(** [!word || typeof word !== 'string']. *)
Definition isInvalid (word : JSValue) : bool :=
  negb (toBoolean word) || negb (jsstring_eqb (typeof word) (str "string")).

Definition markEnd (current : TrieNode) (wordCount : Z) : TrieNode * Z :=
  let wordCount' :=
    if negb (isEndOfWord current) then (wordCount + 1)%Z else wordCount in
  (mkTrieNode (value current) true (frequency current + 1)%Z (children current),
   wordCount').

Fixpoint insertFrom (current : TrieNode) (chars : list jsstring) (wordCount : Z)
  : TrieNode * Z :=
  match chars with
  | [] => markEnd current wordCount
  | char :: rest =>
      let children1 :=
        if negb (JsMap.has char (children current))
        then JsMap.set char (newTrieNode char) (children current)
        else children current in
      match JsMap.get char children1 with
      | Some next =>
          let (next', wordCount') := insertFrom next rest wordCount in
          (setChildren current (JsMap.set char next' children1), wordCount')
      | None => (setChildren current children1, wordCount)   (* not reached: [char] is a key of [children1] *)
      end
  end.

Definition insert (this : Trie) (word : JSValue) : Trie * completion bool :=
  if isInvalid word then (this, Throw invalidInput)
  else match word with
       | JSString w =>
           let (root', wordCount') :=
             insertFrom (root this) (codePoints (toLowerCase w)) (wordCount this) in
           (mkTrie root' wordCount', Return true)
       | _ => (this, Throw invalidInput)   (* not reached: [word] is a string *)
       end.

Fixpoint searchFrom (current : TrieNode) (chars : list jsstring) : bool :=
  match chars with
  | [] => isEndOfWord current
  | char :: rest =>
      if negb (JsMap.has char (children current)) then false
      else match JsMap.get char (children current) with
           | Some next => searchFrom next rest
           | None => false
           end
  end.

Definition search (this : Trie) (word : JSValue) : bool :=
  if isInvalid word then false
  else match word with
       | JSString w => searchFrom (root this) (codePoints (toLowerCase w))
       | _ => false
       end.

(** [deleteRecursive(node, word, depth)], as in [TrieJs] but for the
    key, which is [word[depth].toLowerCase()]. *)
Equations? deleteRecursive (node : TrieNode) (word : jsstring) (depth : nat)
  (wordCount : Z) : bool * TrieNode * Z by wf (length word - depth) lt :=
deleteRecursive node word depth wordCount with Nat.eq_dec depth (length word) := {
  | left _ =>
      if negb (isEndOfWord node) then (false, node, wordCount)
      else (Nat.eqb (JsMap.size (children node)) 0,
            mkTrieNode (value node) false (frequency node - 1)%Z (children node),
            (wordCount - 1)%Z)
  | right _ with inspect (nth_error word depth) := {
    | exist _ None _ => (false, node, wordCount)   (* not reached: [depth] never exceeds [word.length] *)
    | exist _ (Some unit) _ =>
        let char := toLowerCase [unit] in
        if negb (JsMap.has char (children node)) then (false, node, wordCount)
        else match JsMap.get char (children node) with
             | None => (false, node, wordCount)
             | Some child =>
                 let '(shouldDeleteCurrentNode, child', wordCount') :=
                   deleteRecursive child word (depth + 1) wordCount in
                 if shouldDeleteCurrentNode
                 then
                   let children' := JsMap.delete char (children node) in
                   (Nat.eqb (JsMap.size children') 0 && negb (isEndOfWord node),
                    setChildren node children', wordCount')
                 else
                   (false,
                    setChildren node (JsMap.set char child' (children node)),
                    wordCount')
             end } }.
Proof.
  assert (depth < length word) by (apply nth_error_Some; congruence). lia.
Qed.

Definition delete (this : Trie) (word : JSValue) : Trie * completion bool :=
  if isInvalid word then (this, Throw invalidInput)
  else match word with
       | JSString w =>
           let '(_, root', wordCount') :=
             deleteRecursive (root this) (toLowerCase w) 0 (wordCount this) in
           (mkTrie root' wordCount', Return true)
       | _ => (this, Throw invalidInput)   (* not reached: [word] is a string *)
       end.

Fixpoint convertToD3Format (node : TrieNode) (parentName : jsstring) (depth : nat)
  : D3Node :=
  let nodeName := parentName ++ valueOrRoot (value node) in
  let children :=
    map (fun entry : jsstring * TrieNode =>
           let (_, childNode) := entry in
           convertToD3Format childNode nodeName (depth + 1))
        (JsMap.entries (children node)) in
  mkD3Node nodeName (value node) (isEndOfWord node) (frequency node) depth
    (match length children with O => None | S _ => Some children end).

Definition getD3Data (this : Trie) : D3Node :=
  convertToD3Format (root this) [] 0.

End WithToLowerCase.
End App.

(** ** Observers and reasoning devices *)

(** The node reached from [node] by following the keys of [path], when
    every one of them is present. *)
Fixpoint nodeAt (node : TrieNode) (path : list jsstring) : option TrieNode :=
  match path with
  | [] => Some node
  | char :: rest =>
      match JsMap.get char (children node) with
      | Some next => nodeAt next rest
      | None => None
      end
  end.

(** The frequency of the node at the end of [path]; a node that does not
    exist yet counts for the [0] it is created with. *)
Definition terminalFrequency (node : TrieNode) (path : list jsstring) : Z :=
  match nodeAt node path with
  | Some n => frequency n
  | None => 0%Z
  end.

(** [deleteRecursive] unrolled over the list of keys it looks up from
    [depth] on: both classes run this recursion, on different keys. *)
Fixpoint deleteKeys (node : TrieNode) (keys : list jsstring) (wordCount : Z)
  : bool * TrieNode * Z :=
  match keys with
  | [] =>
      if negb (isEndOfWord node) then (false, node, wordCount)
      else (Nat.eqb (JsMap.size (children node)) 0,
            mkTrieNode (value node) false (frequency node - 1)%Z (children node),
            (wordCount - 1)%Z)
  | char :: rest =>
      if negb (JsMap.has char (children node)) then (false, node, wordCount)
      else match JsMap.get char (children node) with
           | None => (false, node, wordCount)
           | Some child =>
               let '(shouldDeleteCurrentNode, child', wordCount') :=
                 deleteKeys child rest wordCount in
               if shouldDeleteCurrentNode
               then
                 let children' := JsMap.delete char (children node) in
                 (Nat.eqb (JsMap.size children') 0 && negb (isEndOfWord node),
                  setChildren node children', wordCount')
               else
                 (false,
                  setChildren node (JsMap.set char child' (children node)),
                  wordCount')
           end
  end.

(** The child of [node] under [char], or the node [insert] creates for it. *)
Definition childOrNew (node : TrieNode) (char : jsstring) : TrieNode :=
  match JsMap.get char (children node) with
  | Some child => child
  | None => newTrieNode char
  end.

(** The keys [App.delete] looks up for the word [w]: the lower-cased code
    units of the lower-cased word. *)
Definition deletePath (toLowerCase : jsstring -> jsstring) (w : jsstring)
  : list jsstring :=
  map (fun unit => toLowerCase [unit]) (toLowerCase w).

(** The string iterator yields the code units of [w] one by one: [w] has
    no leading surrogate followed by a trailing one. *)
Definition noSurrogatePair (w : jsstring) : Prop :=
  codePoints w = map (fun unit => [unit]) w.

(** What the proofs use of [String.prototype.toLowerCase]: lower-casing is
    idempotent, and a string it leaves alone consists of code units it
    leaves alone. *)
Class LowerCaseLaws (toLowerCase : jsstring -> jsstring) : Prop := {
  lower_idempotent : forall w, toLowerCase (toLowerCase w) = toLowerCase w;
  lower_units :
    forall w, toLowerCase w = w ->
    forall unit, In unit w -> toLowerCase [unit] = [unit]
}.

(** ** The pruning invariant *)

(** A node that pruning is meant to remove: no children and not the end
    of a word. *)
Definition isDead (node : TrieNode) : bool :=
  Nat.eqb (JsMap.size (children node)) 0 && negb (isEndOfWord node).

(** No node strictly below [node] is dead. *)
Fixpoint noDeadBelow (node : TrieNode) : bool :=
  forallb (fun entry : jsstring * TrieNode =>
             let (_, child) := entry in
             negb (isDead child) && noDeadBelow child)
          (children node).

(** [descendant node n]: [n] is reachable from [node] through one or more
    child edges. *)
Inductive descendant (node : TrieNode) : TrieNode -> Prop :=
| descendant_child key child :
    In (key, child) (children node) -> descendant node child
| descendant_below key child n :
    In (key, child) (children node) -> descendant child n ->
    descendant node n.

(** The invariant of the application's trie: the root keeps its empty
    value and has no dead node below it. *)
Definition rootInvariant (this : Trie) : Prop :=
  noDeadBelow (root this) = true /\ value (root this) = [].

(** ** Sequences of calls *)

Inductive operation (A : Type) : Type :=
| Insert (word : A)
| Search (word : A)
| Delete (word : A).

Arguments Insert {A} word.
Arguments Search {A} word.
Arguments Delete {A} word.

Definition operand (A : Type) (o : operation A) : A :=
  match o with Insert w | Search w | Delete w => w end.

Definition mapOperation (A B : Type) (f : A -> B) (o : operation A)
  : operation B :=
  match o with
  | Insert w => Insert (f w)
  | Search w => Search (f w)
  | Delete w => Delete (f w)
  end.

(** One call on the application's trie: the trie after the call and the
    outcome of the call. *)
Definition appStep (toLowerCase : jsstring -> jsstring) (this : Trie)
  (o : operation JSValue) : Trie * completion bool :=
  match o with
  | Insert w => App.insert toLowerCase this w
  | Search w => (this, Return (App.search toLowerCase this w))
  | Delete w => App.delete toLowerCase this w
  end.

(** A sequence of calls; a call that throws is caught by the caller and
    the sequence goes on. *)
Fixpoint appRun (toLowerCase : jsstring -> jsstring) (this : Trie)
  (ops : list (operation JSValue)) : Trie * list (completion bool) :=
  match ops with
  | [] => (this, [])
  | o :: rest =>
      let (this1, r) := appStep toLowerCase this o in
      let (this2, rs) := appRun toLowerCase this1 rest in
      (this2, r :: rs)
  end.

Definition trieJsStep (this : Trie) (o : operation jsstring) : Trie * bool :=
  match o with
  | Insert w => TrieJs.insert this w
  | Search w => (this, TrieJs.search this w)
  | Delete w => TrieJs.delete this w
  end.

Fixpoint trieJsRun (this : Trie) (ops : list (operation jsstring))
  : Trie * list bool :=
  match ops with
  | [] => (this, [])
  | o :: rest =>
      let (this1, r) := trieJsStep this o in
      let (this2, rs) := trieJsRun this1 rest in
      (this2, r :: rs)
  end.

(** The states of the application's trie that calls can produce from
    [new Trie()]. *)
Definition reachable (toLowerCase : jsstring -> jsstring) (this : Trie) : Prop :=
  exists ops, fst (appRun toLowerCase newTrie ops) = this.

(** ** The component [App] of [src/App.jsx]

    The state of the component is what its hooks hold: the trie, the text
    of the input box, the result of the last search ([null] is [None]) and
    the error message ([null] is [None]).  [diagram] is the hierarchy from
    which [visualizeTrie] last built the drawing; the container of the
    drawing is taken to be mounted, as it is whenever a button can be
    clicked.  [String.prototype.trim] is a built-in, taken as a
    parameter like [toLowerCase]. *)

Record AppState : Type := mkAppState {
  trie : Trie;
  inputWord : jsstring;
  searchResult : option bool;
  error : option jsstring;
  diagram : D3Node
}.

Module AppComponent.
Section WithBuiltins.

Variable toLowerCase : jsstring -> jsstring.
Variable trim : jsstring -> jsstring.

(** [visualizeTrie]: the drawing is rebuilt from [trie.getD3Data()]. *)
Definition visualizeTrie (s : AppState) : AppState :=
  mkAppState (trie s) (inputWord s) (searchResult s) (error s)
    (App.getD3Data (trie s)).

(** The state after the first render and its effect. *)
Definition initialState : AppState :=
  visualizeTrie (mkAppState newTrie [] None None (App.getD3Data newTrie)).

(** [onChange] of the input box: [setInputWord(e.target.value)]. *)
Definition setInputWord (s : AppState) (text : jsstring) : AppState :=
  mkAppState (trie s) text (searchResult s) (error s) (diagram s).

Definition handleInsert (s : AppState) : AppState :=
  if toBoolean (JSString (trim (inputWord s))) then
    match App.insert toLowerCase (trie s) (JSString (trim (inputWord s))) with
    | (trie', Return _) =>
        let s1 := visualizeTrie
                    (mkAppState trie' (inputWord s) (searchResult s) (error s)
                       (diagram s)) in
        mkAppState (trie s1) [] (searchResult s1) None (diagram s1)
    | (trie', Throw message) =>
        mkAppState trie' (inputWord s) (searchResult s) (Some message)
          (diagram s)
    end
  else s.

Definition handleSearch (s : AppState) : AppState :=
  if toBoolean (JSString (trim (inputWord s))) then
    let result := App.search toLowerCase (trie s) (JSString (trim (inputWord s))) in
    mkAppState (trie s) (inputWord s) (Some result) None (diagram s)
  else s.

Definition handleDelete (s : AppState) : AppState :=
  if toBoolean (JSString (trim (inputWord s))) then
    match App.delete toLowerCase (trie s) (JSString (trim (inputWord s))) with
    | (trie', Return _) =>
        let s1 := visualizeTrie
                    (mkAppState trie' (inputWord s) (searchResult s) (error s)
                       (diagram s)) in
        mkAppState (trie s1) [] None None (diagram s1)
    | (trie', Throw message) =>
        mkAppState trie' (inputWord s) (searchResult s) (Some message)
          (diagram s)
    end
  else s.

(** What the user does: type a text into the box or click a button. *)
Inductive event : Type :=
| TypeText (text : jsstring)
| ClickInsert
| ClickSearch
| ClickDelete.

Definition handle (s : AppState) (e : event) : AppState :=
  match e with
  | TypeText text => setInputWord s text
  | ClickInsert => handleInsert s
  | ClickSearch => handleSearch s
  | ClickDelete => handleDelete s
  end.

Definition session (events : list event) : AppState :=
  fold_left handle events initialState.

End WithBuiltins.
End AppComponent.

(** What every handler keeps: no error is shown, the drawing is the export
    of the trie, and the trie is one that calls can build. *)
Definition sessionInvariant (toLowerCase : jsstring -> jsstring)
  (s : AppState) : Prop :=
  error s = None /\ diagram s = App.getD3Data (trie s) /\
  reachable toLowerCase (trie s).

(** ** The trie as a set of paths *)

(** What a call does to the set of stored paths. *)
Inductive pathOperation : Type :=
| AddPath (path : list jsstring)
| RemovePath (path : list jsstring)
| KeepPaths.

Definition path_eqb (p q : list jsstring) : bool :=
  if list_eq_dec jsstring_eq_dec p q then true else false.

(** The membership test of the set after one operation. *)
Definition applyPath (stored : list jsstring -> bool) (o : pathOperation)
  : list jsstring -> bool :=
  fun q =>
    match o with
    | AddPath p => if path_eqb q p then true else stored q
    | RemovePath p => if path_eqb q p then false else stored q
    | KeepPaths => stored q
    end.

(** The path a call of the application's trie adds or removes. *)
Definition appPathOperation (toLowerCase : jsstring -> jsstring)
  (o : operation JSValue) : pathOperation :=
  match o with
  | Insert (JSString (unit :: rest)) =>
      AddPath (codePoints (toLowerCase (unit :: rest)))
  | Delete (JSString (unit :: rest)) =>
      RemovePath (deletePath toLowerCase (unit :: rest))
  | _ => KeepPaths
  end.

(** The path a call of the component's trie adds or removes. *)
Definition trieJsPathOperation (o : operation jsstring) : pathOperation :=
  match o with
  | Insert w => AddPath (codePoints w)
  | Delete w => RemovePath (map (fun unit => [unit]) w)
  | Search _ => KeepPaths
  end.

(** The membership test of the set of paths after a sequence of
    operations on the empty set. *)
Definition storedPaths (ops : list pathOperation) : list jsstring -> bool :=
  fold_left applyPath ops (fun _ => false).

(** ** Counting and shape of the nodes *)

(** The number of nodes of the tree of [node] that end a word. *)
Fixpoint countEndOfWord (node : TrieNode) : Z :=
  ((if isEndOfWord node then 1 else 0) +
   fold_right (fun (entry : jsstring * TrieNode) acc =>
                 let (_, child) := entry in countEndOfWord child + acc)
              0 (children node))%Z.

(** The number of nodes that end a word in the trees of the children. *)
Definition countBelow (m : list (jsstring * TrieNode)) : Z :=
  fold_right (fun (entry : jsstring * TrieNode) acc =>
                let (_, child) := entry in (countEndOfWord child + acc)%Z)
             0%Z m.

(** No key occurs twice in a map. *)
Fixpoint uniqueKeys (V : Type) (m : list (jsstring * V)) : bool :=
  match m with
  | [] => true
  | (k, _) :: m' => negb (JsMap.has k m') && uniqueKeys m'
  end.

(** A key produced by the string iterator: one code unit, or a leading
    surrogate followed by a trailing one. *)
Definition isCodePoint (key : jsstring) : bool :=
  match key with
  | [_] => true
  | [u; v] => isLeadingSurrogate u && isTrailingSurrogate v
  | _ => false
  end.

(** Below [node], every map has unique keys and every child carries the
    key it is stored under as its value. *)
Fixpoint wellKeyed (node : TrieNode) : bool :=
  uniqueKeys (children node) &&
  forallb (fun entry : jsstring * TrieNode =>
             let (key, child) := entry in
             jsstring_eqb (value child) key && wellKeyed child)
          (children node).

(** Below [node], every key is one code point. *)
Fixpoint codePointKeys (node : TrieNode) : bool :=
  forallb (fun entry : jsstring * TrieNode =>
             let (key, child) := entry in
             isCodePoint key && codePointKeys child)
          (children node).

(** Frequencies are not negative, and positive where a word ends. *)
Fixpoint frequenciesOk (node : TrieNode) : bool :=
  (0 <=? frequency node)%Z &&
  (if isEndOfWord node then (1 <=? frequency node)%Z else true) &&
  forallb (fun entry : jsstring * TrieNode =>
             let (_, child) := entry in frequenciesOk child)
          (children node).

(** The node an exported record was made from, its children stored under
    their values. *)
Fixpoint nodeOfRecord (record : D3Node) : TrieNode :=
  mkTrieNode (d3_value record) (d3_isEndOfWord record) (d3_frequency record)
    (match d3_children record with
     | Some records => map (fun r => (d3_value r, nodeOfRecord r)) records
     | None => []
     end).

(** The number of records of an exported hierarchy. *)
Fixpoint recordCount (record : D3Node) : nat :=
  S (match d3_children record with
     | Some records => fold_right (fun r acc => recordCount r + acc) 0 records
     | None => 0
     end).

(** The number of nodes of the tree of [node], [node] included. *)
Fixpoint nodeCount (node : TrieNode) : nat :=
  S (fold_right (fun (entry : jsstring * TrieNode) acc =>
                   let (_, child) := entry in nodeCount child + acc)
                0 (children node)).

(** ** Facts about the map operations *)

Section JsMapFacts.
Variable V : Type.
Implicit Types (m : list (jsstring * V)) (k : jsstring) (v : V).

Lemma get_set_eq k v m : JsMap.get k (JsMap.set k v m) = Some v.
Proof.
  induction m as [|[k' v'] m IH]; simpl.
  - destruct (jsstring_eq_dec k k); congruence.
  - destruct (jsstring_eq_dec k k') as [->|Hne]; simpl.
    + destruct (jsstring_eq_dec k' k'); congruence.
    + destruct (jsstring_eq_dec k k'); congruence.
Qed.

Lemma get_set_ne k k' v m :
  k <> k' -> JsMap.get k' (JsMap.set k v m) = JsMap.get k' m.
Proof.
  intros Hne. induction m as [|[k0 v0] m IH]; simpl.
  - destruct (jsstring_eq_dec k' k); congruence.
  - destruct (jsstring_eq_dec k k0) as [->|Hk]; simpl.
    + destruct (jsstring_eq_dec k' k0); congruence.
    + destruct (jsstring_eq_dec k' k0); congruence.
Qed.

Lemma get_delete_eq k m : JsMap.get k (JsMap.delete k m) = None.
Proof.
  induction m as [|[k0 v0] m IH]; simpl; [reflexivity|].
  destruct (jsstring_eq_dec k k0) as [->|Hk]; simpl; [assumption|].
  destruct (jsstring_eq_dec k k0); congruence.
Qed.

Lemma get_delete_ne k k' m :
  k <> k' -> JsMap.get k' (JsMap.delete k m) = JsMap.get k' m.
Proof.
  intros Hne. induction m as [|[k0 v0] m IH]; simpl; [reflexivity|].
  destruct (jsstring_eq_dec k k0) as [->|Hk]; simpl.
  - destruct (jsstring_eq_dec k' k0); congruence.
  - destruct (jsstring_eq_dec k' k0); congruence.
Qed.

Lemma set_set k v v0 m : JsMap.set k v (JsMap.set k v0 m) = JsMap.set k v m.
Proof.
  induction m as [|[k0 v1] m IH]; simpl.
  - destruct (jsstring_eq_dec k k); congruence.
  - destruct (jsstring_eq_dec k k0) as [->|Hk]; simpl.
    + destruct (jsstring_eq_dec k0 k0); congruence.
    + destruct (jsstring_eq_dec k k0); congruence.
Qed.

Lemma has_get k m :
  JsMap.has k m = match JsMap.get k m with Some _ => true | None => false end.
Proof. reflexivity. Qed.

Lemma set_not_empty k v m : JsMap.size (JsMap.set k v m) <> 0.
Proof.
  destruct m as [|[k0 v0] m]; simpl; [discriminate|].
  destruct (jsstring_eq_dec k k0); discriminate.
Qed.

Lemma get_In k v m : JsMap.get k m = Some v -> In (k, v) m.
Proof.
  induction m as [|[k0 v0] m IH]; simpl; [discriminate|].
  destruct (jsstring_eq_dec k k0) as [->|Hk].
  - intros [= ->]. now left.
  - intros H. right. now apply IH.
Qed.

Lemma get_not_empty k v m : JsMap.get k m = Some v -> JsMap.size m <> 0.
Proof. destruct m; simpl; [discriminate|intros _; discriminate]. Qed.

(** A property of all the values of a map survives [set] and [delete]. *)
Lemma forallb_set (P : jsstring * V -> bool) k v m :
  (forall k1 k2, P (k1, v) = P (k2, v)) ->
  forallb P m = true -> P (k, v) = true ->
  forallb P (JsMap.set k v m) = true.
Proof.
  intros Hk. induction m as [|[k0 v0] m IH]; simpl; intros Hm Hv.
  - now rewrite Hv.
  - apply andb_true_iff in Hm as [H0 Hm].
    destruct (jsstring_eq_dec k k0) as [->|Hne]; simpl.
    + now rewrite Hv, Hm.
    + now rewrite H0, IH.
Qed.

Lemma forallb_delete (P : jsstring * V -> bool) k m :
  forallb P m = true -> forallb P (JsMap.delete k m) = true.
Proof.
  induction m as [|[k0 v0] m IH]; simpl; intros Hm; [reflexivity|].
  apply andb_true_iff in Hm as [H0 Hm].
  destruct (jsstring_eq_dec k k0); simpl; [now apply IH|].
  now rewrite H0, IH.
Qed.
End JsMapFacts.

(** ** [deleteRecursive] runs [deleteKeys] *)

Lemma skipn_nth_error_cons (A : Type) (l : list A) (n : nat) (x : A) :
  nth_error l n = Some x -> skipn n l = x :: skipn (S n) l.
Proof.
  revert l. induction n as [|n IH]; intros [|y l]; simpl; try discriminate.
  - now intros [= ->].
  - intros H. now apply IH.
Qed.

Section DeleteRecursiveFacts.
Variable toLowerCase : jsstring -> jsstring.

Lemma App_deleteRecursive_end node word depth wc :
  depth = length word ->
  App.deleteRecursive toLowerCase node word depth wc = deleteKeys node [] wc.
Proof.
  intros H. simp deleteRecursive.
  destruct (Nat.eq_dec depth (length word)) as [e|n]; [|contradiction].
  reflexivity.
Qed.

Lemma App_deleteRecursive_keys word n : forall node depth wc,
  length word - depth = n -> depth <= length word ->
  App.deleteRecursive toLowerCase node word depth wc =
  deleteKeys node (map (fun unit => toLowerCase [unit]) (skipn depth word)) wc.
Proof.
  induction n as [|n IH]; intros node depth wc Hn Hle.
  - assert (depth = length word) as Hd by lia.
    rewrite App_deleteRecursive_end by assumption.
    subst depth. now rewrite skipn_all.
  - assert (depth < length word) as Hlt by lia.
    destruct (nth_error word depth) as [unit|] eqn:Hu;
      [|apply nth_error_None in Hu; lia].
    rewrite (skipn_nth_error_cons _ _ Hu). simpl.
    simp deleteRecursive.
    destruct (Nat.eq_dec depth (length word)) as [e|ne]; [lia|]. simpl.
    rewrite Hu.
    destruct (JsMap.has (toLowerCase [unit]) (children node)); simpl;
      [|reflexivity].
    destruct (JsMap.get (toLowerCase [unit]) (children node)); [|reflexivity].
    rewrite Nat.add_1_r, IH by lia. reflexivity.
Qed.

Lemma TrieJs_deleteRecursive_keys word n : forall node depth wc,
  length word - depth = n -> depth <= length word ->
  TrieJs.deleteRecursive node word depth wc =
  deleteKeys node (map (fun unit => [unit]) (skipn depth word)) wc.
Proof.
  induction n as [|n IH]; intros node depth wc Hn Hle.
  - assert (depth = length word) as Hd by lia.
    subst depth. rewrite skipn_all. simpl.
    simp deleteRecursive.
    destruct (Nat.eq_dec (length word) (length word)) as [e|ne];
      [reflexivity|contradiction].
  - assert (depth < length word) as Hlt by lia.
    destruct (nth_error word depth) as [unit|] eqn:Hu;
      [|apply nth_error_None in Hu; lia].
    rewrite (skipn_nth_error_cons _ _ Hu). simpl.
    simp deleteRecursive.
    destruct (Nat.eq_dec depth (length word)) as [e|ne]; [lia|]. simpl.
    rewrite Hu.
    destruct (JsMap.has [unit] (children node)); simpl; [|reflexivity].
    destruct (JsMap.get [unit] (children node)); [|reflexivity].
    rewrite Nat.add_1_r, IH by lia. reflexivity.
Qed.
End DeleteRecursiveFacts.

(** ** Insertion and lookup along a path *)

Lemma setChildren_id node : setChildren node (children node) = node.
Proof. now destruct node. Qed.

Lemma nodeAt_newTrieNode char path :
  nodeAt (newTrieNode char) path =
  match path with [] => Some (newTrieNode char) | _ :: _ => None end.
Proof. now destruct path. Qed.

Lemma searchFrom_nodeAt path : forall node,
  App.searchFrom node path =
  match nodeAt node path with Some n => isEndOfWord n | None => false end.
Proof.
  induction path as [|char rest IH]; intros node; simpl; [reflexivity|].
  rewrite has_get. destruct (JsMap.get char (children node)); simpl; auto.
Qed.

Lemma searchFrom_cons node char rest :
  App.searchFrom node (char :: rest) =
  match JsMap.get char (children node) with
  | Some next => App.searchFrom next rest
  | None => false
  end.
Proof.
  simpl. rewrite has_get. now destruct (JsMap.get char (children node)).
Qed.

Lemma insertFrom_cons node char rest wc :
  App.insertFrom node (char :: rest) wc =
  (setChildren node
     (JsMap.set char (fst (App.insertFrom (childOrNew node char) rest wc))
        (children node)),
   snd (App.insertFrom (childOrNew node char) rest wc)).
Proof.
  simpl. unfold childOrNew. rewrite has_get.
  destruct (JsMap.get char (children node)) as [child|] eqn:E; simpl.
  - rewrite E. now destruct (App.insertFrom child rest wc).
  - rewrite get_set_eq.
    destruct (App.insertFrom (newTrieNode char) rest wc); simpl.
    now rewrite set_set.
Qed.

Lemma searchFrom_childOrNew node char rest :
  App.searchFrom (childOrNew node char) rest = App.searchFrom node (char :: rest).
Proof.
  rewrite searchFrom_cons. unfold childOrNew.
  destruct (JsMap.get char (children node)); [reflexivity|].
  rewrite searchFrom_nodeAt, nodeAt_newTrieNode. now destruct rest.
Qed.

Lemma terminalFrequency_childOrNew node char rest :
  terminalFrequency (childOrNew node char) rest =
  terminalFrequency node (char :: rest).
Proof.
  unfold terminalFrequency, childOrNew. simpl.
  destruct (JsMap.get char (children node)); [reflexivity|].
  rewrite nodeAt_newTrieNode. now destruct rest.
Qed.

Lemma insertFrom_search path : forall node wc,
  App.searchFrom (fst (App.insertFrom node path wc)) path = true.
Proof.
  induction path as [|char rest IH]; intros node wc.
  - reflexivity.
  - rewrite insertFrom_cons, searchFrom_cons. simpl.
    rewrite get_set_eq. apply IH.
Qed.

Lemma insertFrom_frequency path : forall node wc,
  terminalFrequency (fst (App.insertFrom node path wc)) path =
  (terminalFrequency node path + 1)%Z.
Proof.
  induction path as [|char rest IH]; intros node wc.
  - reflexivity.
  - rewrite insertFrom_cons, <- (terminalFrequency_childOrNew node).
    rewrite <- IH with (wc := wc).
    unfold terminalFrequency. simpl. now rewrite get_set_eq.
Qed.

Lemma insertFrom_wordCount path : forall node wc,
  snd (App.insertFrom node path wc) =
  if App.searchFrom node path then wc else (wc + 1)%Z.
Proof.
  induction path as [|char rest IH]; intros node wc.
  - simpl. now destruct (isEndOfWord node).
  - rewrite insertFrom_cons, <- (searchFrom_childOrNew node). simpl. apply IH.
Qed.

(** ** Deletion along a path *)

Lemma deleteKeys_cons node char rest wc :
  deleteKeys node (char :: rest) wc =
  match JsMap.get char (children node) with
  | None => (false, node, wc)
  | Some child =>
      let '(shouldDelete, child', wc') := deleteKeys child rest wc in
      if shouldDelete
      then (Nat.eqb (JsMap.size (JsMap.delete char (children node))) 0
              && negb (isEndOfWord node),
            setChildren node (JsMap.delete char (children node)), wc')
      else (false, setChildren node (JsMap.set char child' (children node)), wc')
  end.
Proof.
  simpl. rewrite has_get. now destruct (JsMap.get char (children node)).
Qed.

Lemma deleteKeys_search keys : forall node wc,
  App.searchFrom (snd (fst (deleteKeys node keys wc))) keys = false.
Proof.
  induction keys as [|char rest IH]; intros node wc.
  - simpl. destruct (isEndOfWord node) eqn:E; simpl; [reflexivity|assumption].
  - rewrite deleteKeys_cons.
    destruct (JsMap.get char (children node)) as [child|] eqn:E.
    + specialize (IH child wc).
      destruct (deleteKeys child rest wc) as [[[] child'] wc'];
        cbn [fst snd] in *; rewrite searchFrom_cons; cbn [children setChildren].
      * now rewrite get_delete_eq.
      * now rewrite get_set_eq.
    + cbn [fst snd]. rewrite searchFrom_cons. now rewrite E.
Qed.

Lemma deleteKeys_wordCount keys : forall node wc,
  snd (deleteKeys node keys wc) =
  if App.searchFrom node keys then (wc - 1)%Z else wc.
Proof.
  induction keys as [|char rest IH]; intros node wc.
  - simpl. now destruct (isEndOfWord node).
  - rewrite deleteKeys_cons, searchFrom_cons.
    destruct (JsMap.get char (children node)) as [child|]; [|reflexivity].
    specialize (IH child wc).
    now destruct (deleteKeys child rest wc) as [[[] child'] wc'].
Qed.

(** When [deleteRecursive] answers [true], the node it leaves is childless
    and not the end of a word. *)
Lemma deleteKeys_true keys : forall node wc,
  fst (fst (deleteKeys node keys wc)) = true ->
  children (snd (fst (deleteKeys node keys wc))) = [] /\
  isEndOfWord (snd (fst (deleteKeys node keys wc))) = false.
Proof.
  assert (Hsize : forall m : list (jsstring * TrieNode),
             Nat.eqb (JsMap.size m) 0 = true -> m = []).
  { intros [|e m]; [reflexivity|discriminate]. }
  destruct keys as [|char rest]; intros node wc.
  - simpl. destruct (isEndOfWord node); simpl; [|discriminate].
    intros H. split; [now apply Hsize|reflexivity].
  - rewrite deleteKeys_cons.
    destruct (JsMap.get char (children node)) as [child|]; [|discriminate].
    destruct (deleteKeys child rest wc) as [[[] child'] wc']; simpl;
      [|discriminate].
    intros H. apply andb_true_iff in H as [H1 H2].
    split; [now apply Hsize|]. now destruct (isEndOfWord node).
Qed.

Lemma searchFrom_dead node path :
  children node = [] -> isEndOfWord node = false ->
  App.searchFrom node path = false.
Proof.
  intros Hc He. destruct path as [|char rest]; simpl; [assumption|].
  now rewrite Hc.
Qed.

(** Deleting along [keys] changes the answer of [search] for no other
    path. *)
Lemma deleteKeys_search_other keys : forall node wc path,
  path <> keys ->
  App.searchFrom (snd (fst (deleteKeys node keys wc))) path =
  App.searchFrom node path.
Proof.
  induction keys as [|char rest IH]; intros node wc path Hne.
  - destruct path as [|c p]; [congruence|].
    simpl. destruct (isEndOfWord node); reflexivity.
  - rewrite deleteKeys_cons.
    destruct (JsMap.get char (children node)) as [child|] eqn:E;
      [|reflexivity].
    pose proof (IH child wc) as IHc.
    pose proof (deleteKeys_true rest child wc) as Htrue.
    destruct (deleteKeys child rest wc) as [[[] child'] wc'];
      cbn [fst snd] in *.
    + destruct path as [|c p]; [reflexivity|].
      rewrite !searchFrom_cons. cbn [children setChildren].
      destruct (jsstring_eq_dec char c) as [<-|Hc].
      * rewrite get_delete_eq, E.
        destruct Htrue as [H1 H2]; [reflexivity|].
        rewrite <- IHc by congruence.
        symmetry. now apply searchFrom_dead.
      * now rewrite get_delete_ne.
    + destruct path as [|c p]; [reflexivity|].
      rewrite !searchFrom_cons. cbn [children setChildren].
      destruct (jsstring_eq_dec char c) as [<-|Hc].
      * rewrite get_set_eq, E. apply IHc. congruence.
      * now rewrite get_set_ne.
Qed.

Lemma set_get_id (V : Type) (k : jsstring) (v : V) (m : list (jsstring * V)) :
  JsMap.get k m = Some v -> JsMap.set k v m = m.
Proof.
  induction m as [|[k0 v0] m IH]; simpl; [discriminate|].
  destruct (jsstring_eq_dec k k0) as [->|Hk].
  - now intros [= ->].
  - intros H. now rewrite IH.
Qed.

(** Deleting a path that is not a stored word changes nothing. *)
Lemma deleteKeys_absent keys : forall node wc,
  App.searchFrom node keys = false ->
  deleteKeys node keys wc = (false, node, wc).
Proof.
  induction keys as [|char rest IH]; intros node wc.
  - simpl. now intros ->.
  - rewrite deleteKeys_cons, searchFrom_cons.
    destruct (JsMap.get char (children node)) as [child|] eqn:E;
      [|reflexivity].
    intros H. rewrite IH by assumption.
    now rewrite set_get_id, setChildren_id.
Qed.

(** ** The methods of the application's trie on a valid word *)

Section AppMethods.
Variable toLowerCase : jsstring -> jsstring.

Lemma isInvalid_string unit rest :
  App.isInvalid (JSString (unit :: rest)) = false.
Proof. reflexivity. Qed.

Lemma isInvalid_other word :
  (forall unit rest, word <> JSString (unit :: rest)) ->
  App.isInvalid word = true.
Proof.
  intros H. destruct word as [| | b | n | [|unit rest] |];
    try reflexivity.
  - unfold App.isInvalid. simpl. now destruct b.
  - unfold App.isInvalid. simpl. now destruct (n =? 0)%Z.
  - now elim (H unit rest).
Qed.

Lemma insert_valid this unit rest :
  App.insert toLowerCase this (JSString (unit :: rest)) =
  (mkTrie
     (fst (App.insertFrom (root this)
             (codePoints (toLowerCase (unit :: rest))) (wordCount this)))
     (snd (App.insertFrom (root this)
             (codePoints (toLowerCase (unit :: rest))) (wordCount this))),
   Return true).
Proof.
  unfold App.insert. rewrite isInvalid_string.
  now destruct (App.insertFrom _ _ _).
Qed.

Lemma search_valid this unit rest :
  App.search toLowerCase this (JSString (unit :: rest)) =
  App.searchFrom (root this) (codePoints (toLowerCase (unit :: rest))).
Proof. unfold App.search. now rewrite isInvalid_string. Qed.

Lemma delete_valid this unit rest :
  App.delete toLowerCase this (JSString (unit :: rest)) =
  (mkTrie
     (snd (fst (deleteKeys (root this)
                  (deletePath toLowerCase (unit :: rest)) (wordCount this))))
     (snd (deleteKeys (root this)
             (deletePath toLowerCase (unit :: rest)) (wordCount this))),
   Return true).
Proof.
  unfold App.delete. rewrite isInvalid_string.
  rewrite (@App_deleteRecursive_keys toLowerCase _
             (length (toLowerCase (unit :: rest)))) by lia.
  unfold deletePath. simpl skipn.
  now destruct (deleteKeys _ _ _) as [[b n] wc].
Qed.

(** On a word without surrogate pairs, [delete] follows the path that
    [insert] and [search] follow. *)
Lemma deletePath_codePoints `{!LowerCaseLaws toLowerCase} w :
  noSurrogatePair (toLowerCase w) ->
  deletePath toLowerCase w = codePoints (toLowerCase w).
Proof.
  intros H. unfold deletePath. rewrite H. apply map_ext_in.
  intros unit Hin. apply lower_units with (w := toLowerCase w); [|assumption].
  apply lower_idempotent.
Qed.
End AppMethods.

(** ** The ASCII lower-casing satisfies the laws *)

Lemma asciiLower_unit_idempotent (u : code_unit) :
  let f := fun u => if ((65 <=? u) && (u <=? 90))%Z then (u + 32)%Z else u in
  f (f u) = f u.
Proof.
  simpl. destruct ((65 <=? u) && (u <=? 90))%Z eqn:E.
  - apply andb_true_iff in E as [H1 H2].
    apply Z.leb_le in H1. apply Z.leb_le in H2.
    replace (u + 32 <=? 90)%Z with false by (symmetry; apply Z.leb_gt; lia).
    now rewrite andb_false_r.
  - now rewrite E.
Qed.

#[export] Instance asciiLower_laws : LowerCaseLaws asciiLower.
Proof.
  split.
  - intros w. unfold asciiLower. rewrite map_map. apply map_ext.
    intros u. apply asciiLower_unit_idempotent.
  - intros w. induction w as [|u w IH]; intros Hw unit Hin; [destruct Hin|].
    unfold asciiLower in *. simpl in Hw. injection Hw as Hu Hrest.
    destruct Hin as [<-|Hin].
    + simpl. now rewrite Hu.
    + now apply IH.
Qed.

(** ** Round trip: insert, then search *)

(** C1. For every non-empty string [w] and every state of the trie,
    [insert(w)] returns [true] and a following [search(w)] on the same
    trie returns [true]. *)
Theorem insert_then_search (toLowerCase : jsstring -> jsstring)
  (this : Trie) (w : jsstring) :
  w <> [] ->
  snd (App.insert toLowerCase this (JSString w)) = Return true /\
  App.search toLowerCase (fst (App.insert toLowerCase this (JSString w)))
    (JSString w) = true.
Proof.
  intros Hw. destruct w as [|unit rest]; [congruence|].
  rewrite insert_valid, search_valid. simpl fst. simpl snd. cbn [root].
  split; [reflexivity|apply insertFrom_search].
Qed.

Lemma insert_then_search_witness :
  str "cat" <> [] /\
  snd (App.insert asciiLower newTrie (JSString (str "cat"))) = Return true /\
  App.search asciiLower
    (fst (App.insert asciiLower newTrie (JSString (str "cat"))))
    (JSString (str "cat")) = true.
Proof.
  split; [discriminate|].
  apply (@insert_then_search asciiLower newTrie (str "cat")). discriminate.
Defined.

(** ** Insert, then delete *)

(** The claim that [wordCount] is restored for every reachable state fails
    when the word is already stored: the second [insert] leaves
    [wordCount] alone and [delete] decrements it. *)
Lemma insert_delete_restores_wordCount_counterexample :
  ~ (forall (this : Trie) (w : jsstring),
       reachable asciiLower this -> w <> [] ->
       let after :=
         fst (App.delete asciiLower
                (fst (App.insert asciiLower this (JSString w))) (JSString w)) in
       App.search asciiLower after (JSString w) = false /\
       wordCount after = wordCount this).
Proof.
  intros H.
  specialize (H (fst (App.insert asciiLower newTrie (JSString (str "cat"))))
                (str "cat")).
  destruct H as [_ H].
  - exists [Insert (JSString (str "cat"))]. reflexivity.
  - discriminate.
  - vm_compute in H. discriminate.
Qed.

(** [insert] iterates over code points and [deleteRecursive] indexes code
    units: a word with a character outside the Basic Multilingual Plane
    (here U+1F600, the code units D83D DE00) is inserted under one key and
    looked up by [delete] under another, so [delete] does not remove it. *)
Example delete_misses_surrogate_pair :
  let w := [55357; 56832]%Z in
  let after :=
    fst (App.delete asciiLower
           (fst (App.insert asciiLower newTrie (JSString w))) (JSString w)) in
  App.search asciiLower after (JSString w) = true /\ wordCount after = 1%Z.
Proof. vm_compute. split; reflexivity. Qed.

(** C2, amended. For every non-empty string [w] whose lower-cased form has
    no surrogate pair and every state of the trie, [insert(w)] followed by
    [delete(w)] leaves [search(w)] returning [false]; [wordCount] is back
    at its value before the insert when [w] was not stored before it, and
    is one below that value when [w] was already stored. *)
Theorem insert_then_delete (toLowerCase : jsstring -> jsstring)
  (laws : LowerCaseLaws toLowerCase) (this : Trie) (w : jsstring) :
  w <> [] -> noSurrogatePair (toLowerCase w) ->
  let after :=
    fst (App.delete toLowerCase
           (fst (App.insert toLowerCase this (JSString w))) (JSString w)) in
  App.search toLowerCase after (JSString w) = false /\
  wordCount after =
    if App.search toLowerCase this (JSString w)
    then (wordCount this - 1)%Z else wordCount this.
Proof.
  intros Hw Hpair. destruct w as [|unit rest]; [congruence|].
  cbv zeta. rewrite insert_valid, delete_valid, !search_valid.
  cbn [fst snd root wordCount].
  rewrite deletePath_codePoints by assumption.
  split; [apply deleteKeys_search|].
  rewrite deleteKeys_wordCount, insertFrom_search, insertFrom_wordCount.
  destruct (App.searchFrom (root this) _); lia.
Qed.

Lemma insert_then_delete_witness :
  str "cat" <> [] /\ noSurrogatePair (asciiLower (str "cat")) /\
  let after :=
    fst (App.delete asciiLower
           (fst (App.insert asciiLower newTrie (JSString (str "cat"))))
           (JSString (str "cat"))) in
  App.search asciiLower after (JSString (str "cat")) = false /\
  wordCount after =
    if App.search asciiLower newTrie (JSString (str "cat"))
    then (wordCount newTrie - 1)%Z else wordCount newTrie.
Proof.
  split; [discriminate|]. split; [reflexivity|].
  apply (@insert_then_delete asciiLower asciiLower_laws newTrie (str "cat"));
    [discriminate|reflexivity].
Defined.

(** ** Invalid input *)

(** C4. Given an absent (undefined or null), empty or non-string word,
    [insert] and [delete] throw the invalid-input error and the trie is the
    one before the call, root and [wordCount] alike: the check is the
    first statement of both methods. *)
Theorem invalid_input_throws (toLowerCase : jsstring -> jsstring)
  (this : Trie) (word : JSValue) :
  (forall unit rest, word <> JSString (unit :: rest)) ->
  App.insert toLowerCase this word = (this, Throw App.invalidInput) /\
  App.delete toLowerCase this word = (this, Throw App.invalidInput).
Proof.
  intros H. unfold App.insert, App.delete.
  now rewrite (isInvalid_other H).
Qed.

Lemma invalid_input_throws_witness :
  let this := fst (App.insert asciiLower newTrie (JSString (str "cat"))) in
  (forall unit rest, JSString [] <> JSString (unit :: rest)) /\
  (App.insert asciiLower this (JSString []) = (this, Throw App.invalidInput) /\
   App.delete asciiLower this (JSString []) = (this, Throw App.invalidInput)) /\
  (App.insert asciiLower this JSNull = (this, Throw App.invalidInput) /\
   App.delete asciiLower this JSNull = (this, Throw App.invalidInput)) /\
  (App.insert asciiLower this JSUndefined = (this, Throw App.invalidInput) /\
   App.delete asciiLower this JSUndefined = (this, Throw App.invalidInput)).
Proof.
  cbv zeta. split; [discriminate|].
  pose (this := fst (App.insert asciiLower newTrie (JSString (str "cat")))).
  refine (conj (@invalid_input_throws asciiLower this (JSString []) _)
            (conj (@invalid_input_throws asciiLower this JSNull _)
               (@invalid_input_throws asciiLower this JSUndefined _)));
    discriminate.
Defined.

(** ** Inserting the same word twice *)

(** C5. For every non-empty word [w] and every state of the trie, after
    two calls of [insert(w)] the word is found, each of the two calls has
    raised the frequency of the word's terminal node by exactly 1, and
    [wordCount] has grown by at most 1: the second call leaves it alone. *)
Theorem insert_twice (toLowerCase : jsstring -> jsstring)
  (this : Trie) (w : jsstring) :
  w <> [] ->
  let path := codePoints (toLowerCase w) in
  let once := fst (App.insert toLowerCase this (JSString w)) in
  let twice := fst (App.insert toLowerCase once (JSString w)) in
  App.search toLowerCase twice (JSString w) = true /\
  terminalFrequency (root once) path =
    (terminalFrequency (root this) path + 1)%Z /\
  terminalFrequency (root twice) path =
    (terminalFrequency (root once) path + 1)%Z /\
  (wordCount once = wordCount this \/
   wordCount once = (wordCount this + 1)%Z) /\
  wordCount twice = wordCount once.
Proof.
  intros Hw. destruct w as [|unit rest]; [congruence|].
  cbv zeta. rewrite !insert_valid, search_valid. cbn [fst snd root wordCount].
  repeat split.
  - apply insertFrom_search.
  - apply insertFrom_frequency.
  - apply insertFrom_frequency.
  - rewrite insertFrom_wordCount.
    destruct (App.searchFrom (root this) _); [now left|now right].
  - now rewrite insertFrom_wordCount, insertFrom_search.
Qed.

Lemma insert_twice_witness :
  str "cat" <> [] /\
  let path := codePoints (asciiLower (str "cat")) in
  let once := fst (App.insert asciiLower newTrie (JSString (str "cat"))) in
  let twice := fst (App.insert asciiLower once (JSString (str "cat"))) in
  App.search asciiLower twice (JSString (str "cat")) = true /\
  terminalFrequency (root once) path =
    (terminalFrequency (root newTrie) path + 1)%Z /\
  terminalFrequency (root twice) path =
    (terminalFrequency (root once) path + 1)%Z /\
  (wordCount once = wordCount newTrie \/
   wordCount once = (wordCount newTrie + 1)%Z) /\
  wordCount twice = wordCount once.
Proof.
  split; [discriminate|].
  apply (@insert_twice asciiLower newTrie (str "cat")). discriminate.
Defined.

(** ** Case-insensitive membership *)

(** Two words with the same lower-cased form are the same word for the
    trie. *)
Lemma insert_search_same_lowercase (toLowerCase : jsstring -> jsstring)
  (this : Trie) (w1 w2 : jsstring) :
  w1 <> [] -> w2 <> [] -> toLowerCase w1 = toLowerCase w2 ->
  App.search toLowerCase (fst (App.insert toLowerCase this (JSString w1)))
    (JSString w2) = true.
Proof.
  intros H1 H2 Heq.
  destruct w1 as [|u1 r1]; [congruence|]. destruct w2 as [|u2 r2]; [congruence|].
  rewrite insert_valid, search_valid. cbn [fst root].
  rewrite <- Heq. apply insertFrom_search.
Qed.

(** C7. Words are lower-cased before they are processed: after
    [insert("Cat")], [search("cat")] and [search("CAT")] both return
    [true], whatever the trie held before. *)
Theorem case_insensitive (toLowerCase : jsstring -> jsstring) (this : Trie) :
  toLowerCase (str "Cat") = str "cat" ->
  toLowerCase (str "CAT") = str "cat" ->
  toLowerCase (str "cat") = str "cat" ->
  let after := fst (App.insert toLowerCase this (JSString (str "Cat"))) in
  App.search toLowerCase after (JSString (str "cat")) = true /\
  App.search toLowerCase after (JSString (str "CAT")) = true.
Proof.
  intros H1 H2 H3. cbv zeta.
  split; apply insert_search_same_lowercase; try discriminate; congruence.
Qed.

Lemma case_insensitive_witness :
  asciiLower (str "Cat") = str "cat" /\
  asciiLower (str "CAT") = str "cat" /\
  asciiLower (str "cat") = str "cat" /\
  let after := fst (App.insert asciiLower newTrie (JSString (str "Cat"))) in
  App.search asciiLower after (JSString (str "cat")) = true /\
  App.search asciiLower after (JSString (str "CAT")) = true.
Proof.
  repeat (split; [reflexivity|]).
  apply (@case_insensitive asciiLower newTrie); reflexivity.
Defined.

(** ** Pruning leaves no dead node *)

Lemma noDeadBelow_eq node :
  noDeadBelow node =
  forallb (fun entry : jsstring * TrieNode =>
             let (_, child) := entry in
             negb (isDead child) && noDeadBelow child)
          (children node).
Proof. now destruct node. Qed.

Lemma noDeadBelow_child node key child :
  noDeadBelow node = true -> In (key, child) (children node) ->
  isDead child = false /\ noDeadBelow child = true.
Proof.
  rewrite noDeadBelow_eq. intros H Hin.
  rewrite forallb_forall in H. specialize (H _ Hin). simpl in H.
  apply andb_true_iff in H as [H1 H2].
  split; [now apply negb_true_iff|assumption].
Qed.

Lemma noDeadBelow_descendant node n :
  descendant node n -> noDeadBelow node = true -> isDead n = false.
Proof.
  induction 1 as [node key child Hin|node key child n Hin Hd IH]; intros H.
  - now apply (noDeadBelow_child _ _ _ H Hin).
  - apply IH. now apply (noDeadBelow_child _ _ _ H Hin).
Qed.

Lemma noDeadBelow_childOrNew node char :
  noDeadBelow node = true -> noDeadBelow (childOrNew node char) = true.
Proof.
  intros H. unfold childOrNew.
  destruct (JsMap.get char (children node)) as [child|] eqn:E; [|reflexivity].
  apply get_In in E. now apply (noDeadBelow_child _ _ _ H E).
Qed.

Lemma insertFrom_noDead path : forall node wc,
  noDeadBelow node = true ->
  noDeadBelow (fst (App.insertFrom node path wc)) = true /\
  isDead (fst (App.insertFrom node path wc)) = false.
Proof.
  induction path as [|char rest IH]; intros node wc H.
  - cbn [App.insertFrom App.markEnd fst]. split.
    + rewrite noDeadBelow_eq in H |- *. exact H.
    + unfold isDead. simpl. apply andb_false_r.
  - rewrite insertFrom_cons. cbn [fst].
    destruct (IH (childOrNew node char) wc (noDeadBelow_childOrNew _ _ H))
      as [I1 I2].
    split.
    + rewrite noDeadBelow_eq. cbn [children setChildren].
      apply forallb_set; [reflexivity|now rewrite <- noDeadBelow_eq|].
      now rewrite I1, I2.
    + unfold isDead. cbn [children setChildren].
      destruct (JsMap.size (JsMap.set char _ (children node))) eqn:E;
        [now apply set_not_empty in E|reflexivity].
Qed.

Lemma deleteKeys_noDead keys : forall node wc,
  noDeadBelow node = true ->
  noDeadBelow (snd (fst (deleteKeys node keys wc))) = true /\
  (fst (fst (deleteKeys node keys wc)) = false -> isDead node = false ->
   isDead (snd (fst (deleteKeys node keys wc))) = false).
Proof.
  induction keys as [|char rest IH]; intros node wc H.
  - cbn [deleteKeys]. destruct (isEndOfWord node) eqn:E; cbn [negb fst snd].
    + split; [rewrite noDeadBelow_eq in H |- *; exact H|].
      unfold isDead. simpl. now intros ->.
    + now split.
  - rewrite deleteKeys_cons.
    destruct (JsMap.get char (children node)) as [child|] eqn:E;
      [|now split].
    pose proof (get_In _ _ E) as Hin.
    destruct (noDeadBelow_child _ _ _ H Hin) as [Hlive Hbelow].
    specialize (IH child wc Hbelow).
    destruct (deleteKeys child rest wc) as [[[] child'] wc'];
      cbn [fst snd] in *; destruct IH as [I1 I2].
    + split.
      * rewrite noDeadBelow_eq. cbn [children setChildren].
        apply forallb_delete. now rewrite <- noDeadBelow_eq.
      * unfold isDead. cbn [children setChildren isEndOfWord]. now intros ->.
    + split.
      * rewrite noDeadBelow_eq. cbn [children setChildren].
        apply forallb_set; [reflexivity|now rewrite <- noDeadBelow_eq|].
        now rewrite I1, I2.
      * intros _ _. unfold isDead. cbn [children setChildren].
        destruct (JsMap.size (JsMap.set char child' (children node))) eqn:Es;
          [now apply set_not_empty in Es|reflexivity].
Qed.

Lemma insertFrom_value path : forall node wc,
  value (fst (App.insertFrom node path wc)) = value node.
Proof.
  destruct path as [|char rest]; intros node wc; [reflexivity|].
  now rewrite insertFrom_cons.
Qed.

Lemma deleteKeys_value keys : forall node wc,
  value (snd (fst (deleteKeys node keys wc))) = value node.
Proof.
  destruct keys as [|char rest]; intros node wc.
  - simpl. now destruct (isEndOfWord node).
  - rewrite deleteKeys_cons.
    destruct (JsMap.get char (children node)) as [child|]; [|reflexivity].
    now destruct (deleteKeys child rest wc) as [[[] child'] wc'].
Qed.

Lemma word_cases (word : JSValue) :
  App.isInvalid word = true \/ exists unit rest, word = JSString (unit :: rest).
Proof.
  destruct word as [| | b | n | [|unit rest] |]; try (now left).
  - left. unfold App.isInvalid. simpl. now destruct b.
  - left. unfold App.isInvalid. simpl. now destruct (n =? 0)%Z.
  - right. now exists unit, rest.
Qed.

Lemma appStep_invariant toLowerCase this o :
  rootInvariant this -> rootInvariant (fst (appStep toLowerCase this o)).
Proof.
  intros [H1 H2]. destruct o as [word|word|word]; simpl; [|now split|].
  - destruct (word_cases word) as [Hinv|(unit & rest & ->)].
    + unfold App.insert. rewrite Hinv. now split.
    + rewrite insert_valid. split; cbn [fst root].
      * now apply insertFrom_noDead.
      * now rewrite insertFrom_value.
  - destruct (word_cases word) as [Hinv|(unit & rest & ->)].
    + unfold App.delete. rewrite Hinv. now split.
    + rewrite delete_valid. split; cbn [fst root].
      * now apply deleteKeys_noDead.
      * now rewrite deleteKeys_value.
Qed.

Lemma appRun_invariant toLowerCase ops : forall this,
  rootInvariant this -> rootInvariant (fst (appRun toLowerCase this ops)).
Proof.
  induction ops as [|o rest IH]; intros this H; [exact H|].
  simpl. pose proof (appStep_invariant toLowerCase o H) as Hs.
  destruct (appStep toLowerCase this o) as [this1 r].
  specialize (IH this1 Hs).
  now destruct (appRun toLowerCase this1 rest).
Qed.

Lemma deletePath_fixed toLowerCase (laws : LowerCaseLaws toLowerCase) w :
  toLowerCase w = w -> deletePath toLowerCase w = map (fun unit => [unit]) w.
Proof.
  intros H. unfold deletePath. rewrite H. apply map_ext_in.
  intros unit Hin. now apply lower_units with (w := w).
Qed.

(** C3. After any sequence of [insert], [search] and [delete] calls on a
    new trie, no node below the root is both childless and not the end of
    a word, and the root is still the node with the empty value.  In
    particular, inserting "cat" into the empty trie and deleting it again
    leaves the root and nothing else: [deleteRecursive] answers [true] for
    the root (it is childless and ends no word) and [delete] ignores the
    answer. *)
Theorem no_dead_node_after_operations (toLowerCase : jsstring -> jsstring) :
  (forall ops node,
      descendant (root (fst (appRun toLowerCase newTrie ops))) node ->
      ~ (children node = [] /\ isEndOfWord node = false)) /\
  (forall ops, value (root (fst (appRun toLowerCase newTrie ops))) = []) /\
  (LowerCaseLaws toLowerCase -> toLowerCase (str "cat") = str "cat" ->
   let inserted := fst (App.insert toLowerCase newTrie (JSString (str "cat"))) in
   fst (fst (App.deleteRecursive toLowerCase (root inserted)
               (toLowerCase (str "cat")) 0 (wordCount inserted))) = true /\
   fst (App.delete toLowerCase inserted (JSString (str "cat"))) = newTrie /\
   children (root newTrie) = []).
Proof.
  assert (Hinv : forall ops,
             rootInvariant (fst (appRun toLowerCase newTrie ops))).
  { intros ops. apply appRun_invariant. now split. }
  split; [|split].
  - intros ops node Hd [Hc He].
    pose proof (noDeadBelow_descendant Hd (proj1 (Hinv ops))) as Hdead.
    unfold isDead in Hdead. now rewrite Hc, He in Hdead.
  - intros ops. apply Hinv.
  - intros laws Hcat. cbv zeta. change (str "cat") with [99; 97; 116]%Z in *.
    rewrite insert_valid, delete_valid.
    rewrite (@App_deleteRecursive_keys toLowerCase _
               (length (toLowerCase [99; 97; 116]%Z))) by lia.
    simpl skipn. fold (deletePath toLowerCase [99; 97; 116]%Z).
    rewrite (deletePath_fixed laws Hcat), Hcat.
    repeat split.
Qed.

Lemma no_dead_node_after_operations_witness :
  asciiLower (str "cat") = str "cat" /\
  (forall ops node,
      descendant (root (fst (appRun asciiLower newTrie ops))) node ->
      ~ (children node = [] /\ isEndOfWord node = false)) /\
  (forall ops, value (root (fst (appRun asciiLower newTrie ops))) = []) /\
  (let inserted := fst (App.insert asciiLower newTrie (JSString (str "cat"))) in
   fst (fst (App.deleteRecursive asciiLower (root inserted)
               (asciiLower (str "cat")) 0 (wordCount inserted))) = true /\
   fst (App.delete asciiLower inserted (JSString (str "cat"))) = newTrie /\
   children (root newTrie) = []).
Proof.
  split; [reflexivity|].
  destruct (no_dead_node_after_operations asciiLower) as (Hnodes & Hroot & Hcat).
  split; [exact Hnodes|]. split; [exact Hroot|].
  exact (Hcat asciiLower_laws eq_refl).
Defined.

(** ** Deleting a word keeps the words that share its prefix *)

Lemma searchFrom_prefix prefix : forall node rest,
  App.searchFrom node (prefix ++ rest) = true ->
  exists n, nodeAt node prefix = Some n.
Proof.
  induction prefix as [|char prefix IH]; intros node rest H.
  - now exists node.
  - rewrite <- app_comm_cons, searchFrom_cons in H. simpl.
    destruct (JsMap.get char (children node)) as [next|]; [|discriminate].
    now apply IH with (rest := rest).
Qed.

(** Deleting [w] changes the answer of [search] for no word that [delete]
    does not take for [w]. *)
Lemma delete_search_other (toLowerCase : jsstring -> jsstring)
  (this : Trie) (w v : jsstring) :
  w <> [] -> v <> [] ->
  codePoints (toLowerCase v) <> deletePath toLowerCase w ->
  App.search toLowerCase (fst (App.delete toLowerCase this (JSString w)))
    (JSString v) =
  App.search toLowerCase this (JSString v).
Proof.
  intros Hw Hv Hne.
  destruct w as [|uw rw]; [congruence|]. destruct v as [|uv rv]; [congruence|].
  rewrite delete_valid, !search_valid. cbn [fst root].
  now apply deleteKeys_search_other.
Qed.

(** The answer of [deleteRecursive] at a node on the path: the node is to
    be pruned exactly when its child on the path was pruned and it is left
    without a child and ends no word. *)
Lemma deleteRecursive_verdict (toLowerCase : jsstring -> jsstring)
  (node : TrieNode) (word : jsstring) (depth : nat) (wc : Z)
  (unit : code_unit) (child : TrieNode) :
  nth_error word depth = Some unit ->
  JsMap.get (toLowerCase [unit]) (children node) = Some child ->
  fst (fst (App.deleteRecursive toLowerCase node word depth wc)) =
  fst (fst (App.deleteRecursive toLowerCase child word (depth + 1) wc)) &&
  (Nat.eqb (JsMap.size (JsMap.delete (toLowerCase [unit]) (children node))) 0
   && negb (isEndOfWord node)).
Proof.
  intros Hu Hget.
  assert (depth < length word) as Hlt by (apply nth_error_Some; congruence).
  rewrite (@App_deleteRecursive_keys toLowerCase word (length word - depth))
    by lia.
  rewrite (@App_deleteRecursive_keys toLowerCase word
             (length word - (depth + 1))) by lia.
  rewrite (skipn_nth_error_cons _ _ Hu), Nat.add_1_r. cbn [map].
  rewrite deleteKeys_cons, Hget.
  now destruct (deleteKeys child _ wc) as [[[] child'] wc'].
Qed.

(** C6. Whatever the trie holds, after [insert("cat")] and
    [insert("car")], [delete("cat")] leaves [search("car")] returning
    [true] and [search("cat")] returning [false], the nodes of the shared
    prefixes "c" and "ca" are still in the tree, and every word other than
    "cat" is found after the deletion exactly when it was found before
    it.  Pruning stops at the first node of the path that keeps another
    child or ends a word: [deleteRecursive] asks for a node to be pruned
    only when its child on the path was pruned and the node is left
    childless and ends no word. *)
Theorem shared_prefix_preserved (toLowerCase : jsstring -> jsstring)
  (laws : LowerCaseLaws toLowerCase) (this : Trie) :
  toLowerCase (str "cat") = str "cat" ->
  toLowerCase (str "car") = str "car" ->
  let both :=
    fst (App.insert toLowerCase
           (fst (App.insert toLowerCase this (JSString (str "cat"))))
           (JSString (str "car"))) in
  let after := fst (App.delete toLowerCase both (JSString (str "cat"))) in
  App.search toLowerCase after (JSString (str "car")) = true /\
  App.search toLowerCase after (JSString (str "cat")) = false /\
  (exists c, nodeAt (root after) [str "c"] = Some c) /\
  (exists ca, nodeAt (root after) [str "c"; str "a"] = Some ca) /\
  (forall v, v <> [] ->
     codePoints (toLowerCase v) <> codePoints (str "cat") ->
     App.search toLowerCase after (JSString v) =
     App.search toLowerCase both (JSString v)) /\
  (forall node word depth wc unit child,
     nth_error word depth = Some unit ->
     JsMap.get (toLowerCase [unit]) (children node) = Some child ->
     fst (fst (App.deleteRecursive toLowerCase node word depth wc)) =
     fst (fst (App.deleteRecursive toLowerCase child word (depth + 1) wc)) &&
     (Nat.eqb
        (JsMap.size (JsMap.delete (toLowerCase [unit]) (children node))) 0
      && negb (isEndOfWord node))).
Proof.
  intros Hcat Hcar. cbv zeta.
  set (both := fst (App.insert toLowerCase _ (JSString (str "car")))).
  assert (Hpath : deletePath toLowerCase (str "cat") = codePoints (str "cat")).
  { now rewrite (deletePath_fixed laws Hcat). }
  assert (Hother : forall v, v <> [] ->
            codePoints (toLowerCase v) <> codePoints (str "cat") ->
            App.search toLowerCase
              (fst (App.delete toLowerCase both (JSString (str "cat"))))
              (JSString v) =
            App.search toLowerCase both (JSString v)).
  { intros v Hv Hne. apply delete_search_other;
      [discriminate|assumption|now rewrite Hpath]. }
  assert (Hfound :
            App.search toLowerCase
              (fst (App.delete toLowerCase both (JSString (str "cat"))))
              (JSString (str "car")) = true).
  { rewrite Hother; [|discriminate|rewrite Hcar; discriminate].
    apply insert_search_same_lowercase; [discriminate|discriminate|reflexivity]. }
  assert (Hwalk :
            App.searchFrom
              (root (fst (App.delete toLowerCase both (JSString (str "cat")))))
              [str "c"; str "a"; str "r"] = true).
  { change (str "car") with [99; 97; 114]%Z in Hfound, Hcar.
    rewrite search_valid, Hcar in Hfound. exact Hfound. }
  refine (conj _ (conj _ (conj _ (conj _ (conj _ _))))).
  - exact Hfound.
  - change (str "cat") with [99; 97; 116]%Z in *.
    rewrite delete_valid, search_valid, Hpath, Hcat. cbn [fst root].
    apply deleteKeys_search.
  - apply searchFrom_prefix with (prefix := [str "c"])
      (rest := [str "a"; str "r"]). exact Hwalk.
  - apply searchFrom_prefix with (prefix := [str "c"; str "a"])
      (rest := [str "r"]). exact Hwalk.
  - exact Hother.
  - apply deleteRecursive_verdict.
Qed.

Lemma shared_prefix_preserved_witness :
  asciiLower (str "cat") = str "cat" /\
  asciiLower (str "car") = str "car" /\
  let both :=
    fst (App.insert asciiLower
           (fst (App.insert asciiLower newTrie (JSString (str "cat"))))
           (JSString (str "car"))) in
  let after := fst (App.delete asciiLower both (JSString (str "cat"))) in
  App.search asciiLower after (JSString (str "car")) = true /\
  App.search asciiLower after (JSString (str "cat")) = false /\
  (exists c, nodeAt (root after) [str "c"] = Some c) /\
  (exists ca, nodeAt (root after) [str "c"; str "a"] = Some ca) /\
  (forall v, v <> [] ->
     codePoints (asciiLower v) <> codePoints (str "cat") ->
     App.search asciiLower after (JSString v) =
     App.search asciiLower both (JSString v)).
Proof.
  split; [reflexivity|]. split; [reflexivity|].
  pose proof (@shared_prefix_preserved asciiLower asciiLower_laws newTrie
                eq_refl eq_refl) as H.
  cbv zeta in H. destruct H as (H1 & H2 & H3 & H4 & H5 & _).
  cbv zeta. exact (conj H1 (conj H2 (conj H3 (conj H4 H5)))).
Defined.

(** ** The exported hierarchy *)

(** The name of a record is the name of its parent followed by the
    record's own label, and the label of the root is "root": the name of
    the record of "a" is "roota", not "a", and the name of the record of
    "ab" is "rootab", not "ab". *)
Lemma export_name_counterexample :
  let record :=
    App.getD3Data (fst (App.insert asciiLower newTrie (JSString (str "ab")))) in
  match d3_children record with
  | Some [a] =>
      d3_depth a = 1 /\ d3_value a = str "a" /\ d3_name a <> str "a" /\
      match d3_children a with
      | Some [ab] =>
          d3_depth ab = 2 /\ d3_value ab = str "b" /\ d3_name ab <> str "ab"
      | _ => False
      end
  | _ => False
  end.
Proof. vm_compute. repeat split; discriminate. Qed.

Lemma convertToD3Format_name node parentName depth :
  d3_name (App.convertToD3Format node parentName depth) =
  parentName ++ valueOrRoot (value node).
Proof. now destruct node. Qed.

Lemma convertToD3Format_children node parentName depth :
  d3_children (App.convertToD3Format node parentName depth) =
  match children node with
  | [] => None
  | _ :: _ =>
      Some (map (fun entry : jsstring * TrieNode =>
                   App.convertToD3Format (snd entry)
                     (parentName ++ valueOrRoot (value node)) (depth + 1))
                (children node))
  end.
Proof.
  destruct node as [v e f c]. cbn [App.convertToD3Format d3_children].
  unfold JsMap.entries. cbn [children value].
  destruct c as [|[k child] c]; [reflexivity|]. cbn [map length].
  do 2 f_equal. apply map_ext. now intros [k' child'].
Qed.

(** C8, amended. The export of the trie that holds only "ab", inserted
    once, is a root record (depth 0, name "root") with exactly one child:
    the record of 'a' at depth 1, not the end of a word, whose only child
    is the record of 'b' at depth 2, end of a word with frequency 1.  The
    name of every record is the name of its parent followed by the
    record's own label, the root's label being "root": the names are
    "root", "roota" and "rootab".  The children field is absent, and never
    an empty sequence, on a record of a node without children, and holds
    the records of the children, in the order of the map, otherwise. *)
Theorem export_shape (toLowerCase : jsstring -> jsstring) :
  (toLowerCase (str "ab") = str "ab" ->
   App.getD3Data (fst (App.insert toLowerCase newTrie (JSString (str "ab")))) =
     mkD3Node (str "root") [] false 0 0
       (Some [mkD3Node (str "roota") (str "a") false 0 1
                (Some [mkD3Node (str "rootab") (str "b") true 1 2 None])])) /\
  (forall node parentName depth,
      d3_name (App.convertToD3Format node parentName depth) =
      parentName ++ valueOrRoot (value node)) /\
  (forall node parentName depth,
      d3_children (App.convertToD3Format node parentName depth) =
      match children node with
      | [] => None
      | _ :: _ =>
          Some (map (fun entry : jsstring * TrieNode =>
                       App.convertToD3Format (snd entry)
                         (parentName ++ valueOrRoot (value node)) (depth + 1))
                    (children node))
      end) /\
  (forall node parentName depth,
      d3_children (App.convertToD3Format node parentName depth) <> Some []).
Proof.
  refine (conj _ (conj _ (conj _ _))).
  - intros Hab. change (str "ab") with [97; 98]%Z in *.
    rewrite insert_valid, Hab. reflexivity.
  - intros. apply convertToD3Format_name.
  - intros. apply convertToD3Format_children.
  - intros node parentName depth. rewrite convertToD3Format_children.
    destruct (children node); discriminate.
Qed.

Lemma export_shape_witness :
  asciiLower (str "ab") = str "ab" /\
  App.getD3Data (fst (App.insert asciiLower newTrie (JSString (str "ab")))) =
    mkD3Node (str "root") [] false 0 0
      (Some [mkD3Node (str "roota") (str "a") false 0 1
               (Some [mkD3Node (str "rootab") (str "b") true 1 2 None])]).
Proof.
  split; [reflexivity|].
  apply (proj1 (export_shape asciiLower)). reflexivity.
Defined.

(** ** The two implementations *)

Lemma TrieJs_insertFrom : TrieJs.insertFrom = App.insertFrom.
Proof. reflexivity. Qed.

Lemma TrieJs_searchFrom : TrieJs.searchFrom = App.searchFrom.
Proof. reflexivity. Qed.

Lemma TrieJs_getD3Data : TrieJs.getD3Data = App.getD3Data.
Proof. reflexivity. Qed.

Lemma TrieJs_delete_keys this w :
  TrieJs.delete this w =
  (mkTrie
     (snd (fst (deleteKeys (root this) (map (fun unit => [unit]) w)
                  (wordCount this))))
     (snd (deleteKeys (root this) (map (fun unit => [unit]) w)
             (wordCount this))),
   true).
Proof.
  unfold TrieJs.delete.
  rewrite (@TrieJs_deleteRecursive_keys _ (length w)) by lia.
  simpl skipn. now destruct (deleteKeys _ _ _) as [[b n] wc].
Qed.

Lemma steps_agree (toLowerCase : jsstring -> jsstring)
  (laws : LowerCaseLaws toLowerCase) (this : Trie) (o : operation jsstring) :
  operand o <> [] -> toLowerCase (operand o) = operand o ->
  appStep toLowerCase this (mapOperation JSString o) =
  (fst (trieJsStep this o), Return (snd (trieJsStep this o))).
Proof.
  intros Hne Hlow.
  destruct o as [w|w|w]; simpl in Hne, Hlow;
    (destruct w as [|unit rest]; [congruence|]); cbn [mapOperation appStep].
  - rewrite insert_valid, Hlow. unfold trieJsStep, TrieJs.insert.
    rewrite TrieJs_insertFrom. now destruct (App.insertFrom _ _ _).
  - rewrite search_valid, Hlow. reflexivity.
  - rewrite delete_valid, (deletePath_fixed laws Hlow).
    unfold trieJsStep. now rewrite TrieJs_delete_keys.
Qed.

Lemma runs_agree (toLowerCase : jsstring -> jsstring)
  (laws : LowerCaseLaws toLowerCase) (ops : list (operation jsstring)) :
  forall this,
  (forall o, In o ops ->
     operand o <> [] /\ toLowerCase (operand o) = operand o) ->
  appRun toLowerCase this (map (mapOperation JSString) ops) =
  (fst (trieJsRun this ops), map Return (snd (trieJsRun this ops))).
Proof.
  induction ops as [|o rest IH]; intros this H; [reflexivity|].
  cbn [map appRun trieJsRun].
  destruct (H o (or_introl eq_refl)) as [Hne Hlow].
  rewrite (steps_agree laws this o Hne Hlow).
  destruct (trieJsStep this o) as [this1 r]. cbn [fst snd].
  rewrite IH by (intros o' Hin; apply H; now right).
  now destruct (trieJsRun this1 rest).
Qed.

(** C9. On every sequence of [insert], [search] and [delete] calls whose
    arguments are non-empty strings already in lower case, started on new
    tries, the trie of [App.jsx] and the trie of [components/Trie.js]
    return the same values call by call (the search results among them)
    and end with the same [wordCount] and the same exported hierarchy. *)
Theorem implementations_agree (toLowerCase : jsstring -> jsstring)
  (laws : LowerCaseLaws toLowerCase) (ops : list (operation jsstring)) :
  (forall o, In o ops ->
     operand o <> [] /\ toLowerCase (operand o) = operand o) ->
  let app := appRun toLowerCase newTrie (map (mapOperation JSString) ops) in
  let component := trieJsRun newTrie ops in
  snd app = map Return (snd component) /\
  wordCount (fst app) = wordCount (fst component) /\
  App.getD3Data (fst app) = TrieJs.getD3Data (fst component) /\
  fst app = fst component.
Proof.
  intros H. cbv zeta. rewrite (runs_agree laws ops newTrie H).
  cbn [fst snd]. now rewrite TrieJs_getD3Data.
Qed.

Lemma implementations_agree_witness :
  let ops := [Insert (str "cat"); Insert (str "car"); Search (str "ca");
              Delete (str "cat"); Search (str "car"); Delete (str "dog")] in
  (forall o, In o ops ->
     operand o <> [] /\ asciiLower (operand o) = operand o) /\
  let app := appRun asciiLower newTrie (map (mapOperation JSString) ops) in
  let component := trieJsRun newTrie ops in
  snd app = map Return (snd component) /\
  wordCount (fst app) = wordCount (fst component) /\
  App.getD3Data (fst app) = TrieJs.getD3Data (fst component) /\
  fst app = fst component.
Proof.
  cbv zeta.
  assert (H : forall o,
             In o [Insert (str "cat"); Insert (str "car"); Search (str "ca");
                   Delete (str "cat"); Search (str "car"); Delete (str "dog")] ->
             operand o <> [] /\ asciiLower (operand o) = operand o).
  { intros o Hin. simpl in Hin.
    repeat (destruct Hin as [<-|Hin]; [split; [discriminate|reflexivity]|]).
    destruct Hin. }
  split; [exact H|].
  apply (@implementations_agree asciiLower asciiLower_laws _ H).
Defined.

(** ** The returned success marker *)

(** C10. A call of [insert] or [delete] that does not throw returns
    [true]: in the application's trie the outcome is the invalid-input
    error or [true], in the component's trie it is [true] for every
    string.  [delete] returns [true] also for a word that is absent, as
    every word is in the empty trie, which it leaves as it is. *)
Theorem success_marker_is_true (toLowerCase : jsstring -> jsstring) :
  (forall this word,
      snd (App.insert toLowerCase this word) =
      if App.isInvalid word then Throw App.invalidInput else Return true) /\
  (forall this word,
      snd (App.delete toLowerCase this word) =
      if App.isInvalid word then Throw App.invalidInput else Return true) /\
  (forall this w, snd (TrieJs.insert this w) = true) /\
  (forall this w, snd (TrieJs.delete this w) = true) /\
  (forall unit rest,
      App.search toLowerCase newTrie (JSString (unit :: rest)) = false /\
      App.delete toLowerCase newTrie (JSString (unit :: rest)) =
      (newTrie, Return true)) /\
  (forall unit rest,
      TrieJs.search newTrie (unit :: rest) = false /\
      TrieJs.delete newTrie (unit :: rest) = (newTrie, true)).
Proof.
  assert (Hempty : forall keys wc,
             keys <> [] ->
             App.searchFrom (root newTrie) keys = false /\
             deleteKeys (root newTrie) keys wc = (false, root newTrie, wc)).
  { intros [|char rest] wc Hk; [congruence|]. now split. }
  assert (Hpoints : forall unit rest, codePoints (unit :: rest) <> []).
  { intros unit [|v rest]; simpl; [discriminate|].
    destruct (isLeadingSurrogate unit && isTrailingSurrogate v); discriminate. }
  refine (conj _ (conj _ (conj _ (conj _ (conj _ _))))).
  - intros this word.
    destruct (word_cases word) as [Hinv|(unit & rest & ->)].
    + unfold App.insert. now rewrite Hinv.
    + now rewrite insert_valid, isInvalid_string.
  - intros this word.
    destruct (word_cases word) as [Hinv|(unit & rest & ->)].
    + unfold App.delete. now rewrite Hinv.
    + now rewrite delete_valid, isInvalid_string.
  - intros this w. unfold TrieJs.insert. now destruct (TrieJs.insertFrom _ _ _).
  - intros this w. now rewrite TrieJs_delete_keys.
  - intros unit rest. rewrite search_valid, delete_valid.
    split.
    + destruct (codePoints (toLowerCase (unit :: rest))) as [|char path];
        reflexivity.
    + destruct (deletePath toLowerCase (unit :: rest)) as [|char path];
        reflexivity.
  - intros unit rest. unfold TrieJs.search.
    rewrite TrieJs_searchFrom, TrieJs_delete_keys.
    split.
    + now apply (Hempty _ 0%Z), Hpoints.
    + destruct (Hempty (map (fun u => [u]) (unit :: rest)) (wordCount newTrie)
                  ltac:(discriminate)) as [_ ->].
      reflexivity.
Qed.

(** ** Further properties of the application's trie *)

Lemma path_eqb_eq p q : path_eqb p q = true <-> p = q.
Proof.
  unfold path_eqb. destruct (list_eq_dec jsstring_eq_dec p q); split;
    congruence.
Qed.

Lemma insertFrom_search_other path : forall node wc q,
  q <> path ->
  App.searchFrom (fst (App.insertFrom node path wc)) q = App.searchFrom node q.
Proof.
  induction path as [|char rest IH]; intros node wc q Hne.
  - destruct q as [|c q]; [congruence|]. reflexivity.
  - rewrite insertFrom_cons. cbn [fst].
    destruct q as [|c q]; [reflexivity|].
    rewrite (searchFrom_cons (setChildren _ _)). cbn [children setChildren].
    destruct (jsstring_eq_dec char c) as [<-|Hc].
    + rewrite get_set_eq, IH by congruence. apply searchFrom_childOrNew.
    + rewrite get_set_ne by assumption. now rewrite searchFrom_cons.
Qed.

(** X1. [insert(w)] changes the answer of [search] for no word whose
    lower-cased form is not that of [w]. *)
Theorem insert_search_other (toLowerCase : jsstring -> jsstring)
  (this : Trie) (w v : jsstring) :
  w <> [] -> v <> [] ->
  codePoints (toLowerCase v) <> codePoints (toLowerCase w) ->
  App.search toLowerCase (fst (App.insert toLowerCase this (JSString w)))
    (JSString v) =
  App.search toLowerCase this (JSString v).
Proof.
  intros Hw Hv Hne.
  destruct w as [|uw rw]; [congruence|]. destruct v as [|uv rv]; [congruence|].
  rewrite insert_valid, !search_valid. cbn [fst root].
  now apply insertFrom_search_other.
Qed.

Lemma insert_search_other_witness :
  str "cat" <> [] /\ str "ca" <> [] /\
  codePoints (asciiLower (str "ca")) <> codePoints (asciiLower (str "cat")) /\
  App.search asciiLower
    (fst (App.insert asciiLower newTrie (JSString (str "cat"))))
    (JSString (str "ca")) =
  App.search asciiLower newTrie (JSString (str "ca")).
Proof.
  split; [discriminate|]. split; [discriminate|]. split; [discriminate|].
  apply (@insert_search_other asciiLower newTrie (str "cat") (str "ca"));
    discriminate.
Defined.

Lemma invalid_input_cases toLowerCase this word :
  (forall unit rest, word <> JSString (unit :: rest)) ->
  App.insert toLowerCase this word = (this, Throw App.invalidInput) /\
  App.delete toLowerCase this word = (this, Throw App.invalidInput).
Proof.
  intros H. unfold App.insert, App.delete.
  now rewrite (isInvalid_other H).
Qed.

Lemma word_shapes (word : JSValue) :
  (forall unit rest, word <> JSString (unit :: rest)) \/
  exists unit rest, word = JSString (unit :: rest).
Proof.
  destruct word as [| | b | n | [|unit rest] |];
    try (left; discriminate).
  right. now exists unit, rest.
Qed.

Lemma appPathOperation_other toLowerCase (o : operation JSValue) :
  (forall unit rest, operand o <> JSString (unit :: rest)) ->
  appPathOperation toLowerCase o = KeepPaths.
Proof.
  intros H. destruct o as [word|word|word]; simpl in *; try reflexivity;
    destruct word as [| | b | n | [|unit rest] |]; try reflexivity;
    now elim (H unit rest).
Qed.

Lemma appStep_paths toLowerCase this o q :
  App.searchFrom (root (fst (appStep toLowerCase this o))) q =
  applyPath (App.searchFrom (root this)) (appPathOperation toLowerCase o) q.
Proof.
  destruct (word_shapes (operand o)) as [Hother|(unit & rest & Hw)].
  - rewrite (appPathOperation_other toLowerCase o Hother).
    destruct o as [word|word|word]; simpl in *; [|reflexivity|].
    + now rewrite (proj1 (invalid_input_cases toLowerCase this Hother)).
    + now rewrite (proj2 (invalid_input_cases toLowerCase this Hother)).
  - destruct o as [word|word|word]; simpl in Hw; subst word;
      cbn [appStep appPathOperation applyPath]; [|reflexivity|].
    + rewrite insert_valid. cbn [fst root].
      destruct (path_eqb q _) eqn:E.
      * apply path_eqb_eq in E as ->. apply insertFrom_search.
      * apply insertFrom_search_other. intros ->.
        now rewrite (proj2 (path_eqb_eq _ _) eq_refl) in E.
    + rewrite delete_valid. cbn [fst root].
      destruct (path_eqb q _) eqn:E.
      * apply path_eqb_eq in E as ->. apply deleteKeys_search.
      * apply deleteKeys_search_other. intros ->.
        now rewrite (proj2 (path_eqb_eq _ _) eq_refl) in E.
Qed.

Lemma fold_applyPath_ext ops : forall f g : list jsstring -> bool,
  (forall q, f q = g q) ->
  forall q, fold_left applyPath ops f q = fold_left applyPath ops g q.
Proof.
  induction ops as [|o rest IH]; intros f g H q; [apply H|].
  simpl. apply IH. intros q'. destruct o; simpl; now rewrite ?H.
Qed.

Lemma appRun_paths toLowerCase ops : forall this q,
  App.searchFrom (root (fst (appRun toLowerCase this ops))) q =
  fold_left applyPath (map (appPathOperation toLowerCase) ops)
    (App.searchFrom (root this)) q.
Proof.
  induction ops as [|o rest IH]; intros this q; [reflexivity|].
  cbn [appRun map fold_left].
  pose proof (appStep_paths toLowerCase this o) as Hstep.
  destruct (appStep toLowerCase this o) as [this1 r]. cbn [fst] in Hstep.
  specialize (IH this1 q).
  destruct (appRun toLowerCase this1 rest) as [this2 rs]. cbn [fst] in *.
  rewrite IH. now apply fold_applyPath_ext.
Qed.

(** X2. The application's trie is a set of paths: after any sequence of
    calls on a new trie, [search(v)] is the membership of the code points
    of the lower-cased [v] in the set obtained by adding the code points
    of the lower-cased word at every valid [insert] and removing the
    lower-cased code units of the lower-cased word at every valid
    [delete]; calls with invalid words and searches change nothing. *)
Theorem search_is_membership (toLowerCase : jsstring -> jsstring)
  (ops : list (operation JSValue)) (unit : code_unit) (rest : jsstring) :
  App.search toLowerCase (fst (appRun toLowerCase newTrie ops))
    (JSString (unit :: rest)) =
  storedPaths (map (appPathOperation toLowerCase) ops)
    (codePoints (toLowerCase (unit :: rest))).
Proof.
  rewrite search_valid, appRun_paths. unfold storedPaths.
  apply fold_applyPath_ext. intros [|c q]; reflexivity.
Qed.

(** X3. Deleting a word that is not stored changes nothing: the trie after
    the call is the trie before it, and the call returns [true]. *)
Theorem delete_absent_is_noop (toLowerCase : jsstring -> jsstring)
  (laws : LowerCaseLaws toLowerCase) (this : Trie) (w : jsstring) :
  w <> [] -> noSurrogatePair (toLowerCase w) ->
  App.search toLowerCase this (JSString w) = false ->
  App.delete toLowerCase this (JSString w) = (this, Return true).
Proof.
  intros Hw Hpair Habsent. destruct w as [|unit rest]; [congruence|].
  rewrite search_valid in Habsent.
  rewrite delete_valid, deletePath_codePoints by assumption.
  rewrite deleteKeys_absent by assumption. now destruct this.
Qed.

Lemma delete_absent_is_noop_witness :
  let this := fst (App.insert asciiLower newTrie (JSString (str "cat"))) in
  str "zzz" <> [] /\ noSurrogatePair (asciiLower (str "zzz")) /\
  App.search asciiLower this (JSString (str "zzz")) = false /\
  App.delete asciiLower this (JSString (str "zzz")) = (this, Return true).
Proof.
  cbv zeta. split; [discriminate|]. split; [reflexivity|].
  split; [reflexivity|].
  apply (@delete_absent_is_noop asciiLower asciiLower_laws
           (fst (App.insert asciiLower newTrie (JSString (str "cat"))))
           (str "zzz")); [discriminate|reflexivity|reflexivity].
Defined.

(** X4. [delete] is idempotent: a second [delete] of the same argument
    leaves the trie as the first one left it, whatever the argument. *)
Theorem delete_twice (toLowerCase : jsstring -> jsstring)
  (this : Trie) (word : JSValue) :
  fst (App.delete toLowerCase
         (fst (App.delete toLowerCase this word)) word) =
  fst (App.delete toLowerCase this word).
Proof.
  destruct (word_shapes word) as [Hother|(unit & rest & ->)].
  - now rewrite !(proj2 (invalid_input_cases toLowerCase _ Hother)).
  - rewrite !delete_valid. cbn [fst root wordCount].
    now rewrite (deleteKeys_absent _ _ _ (deleteKeys_search _ _ _)).
Qed.

Lemma delete_set_fresh (V : Type) (k : jsstring) (v : V)
  (m : list (jsstring * V)) :
  JsMap.get k m = None -> JsMap.delete k (JsMap.set k v m) = m.
Proof.
  induction m as [|[k0 v0] m IH]; simpl.
  - intros _. destruct (jsstring_eq_dec k k); congruence.
  - destruct (jsstring_eq_dec k k0) as [->|Hk]; [discriminate|].
    intros H. simpl. destruct (jsstring_eq_dec k k0); [congruence|].
    now rewrite IH.
Qed.

Lemma setChildren_setChildren node c c' :
  setChildren (setChildren node c) c' = setChildren node c'.
Proof. reflexivity. Qed.

Lemma insertFrom_deleteKeys path : forall node wc,
  noDeadBelow node = true -> App.searchFrom node path = false ->
  deleteKeys (fst (App.insertFrom node path wc)) path
    (snd (App.insertFrom node path wc)) =
  (isDead node, node, wc).
Proof.
  induction path as [|char rest IH]; intros node wc Hlive Habsent.
  - simpl in Habsent. unfold isDead. destruct node as [v e f c].
    simpl in *. subst e. rewrite andb_true_r.
    cbn [negb].
    replace (f + 1 - 1)%Z with f by lia.
    replace (wc + 1 - 1)%Z with wc by lia. reflexivity.
  - rewrite insertFrom_cons. cbn [fst snd].
    rewrite deleteKeys_cons.
    change (children (setChildren node ?c)) with c.
    change (isEndOfWord (setChildren node ?c)) with (isEndOfWord node).
    rewrite get_set_eq.
    rewrite <- searchFrom_childOrNew in Habsent.
    rewrite (IH _ wc (noDeadBelow_childOrNew _ _ Hlive) Habsent).
    rewrite !setChildren_setChildren.
    unfold childOrNew in *.
    destruct (JsMap.get char (children node)) as [child|] eqn:E.
    + destruct (noDeadBelow_child _ _ _ Hlive (get_In _ _ E)) as [Hc _].
      rewrite Hc, set_set, (set_get_id _ _ E), setChildren_id.
      unfold isDead.
      destruct (JsMap.size (children node)) eqn:Es;
        [now apply get_not_empty in E|reflexivity].
    + replace (isDead (newTrieNode char)) with true by reflexivity.
      rewrite delete_set_fresh by assumption. now rewrite setChildren_id.
Qed.

Lemma reachable_invariant toLowerCase this :
  reachable toLowerCase this -> rootInvariant this.
Proof.
  intros [ops <-]. apply appRun_invariant. now split.
Qed.

(** X5. On a trie built by calls, inserting a word that is not stored and
    deleting it again gives back the very same trie: every node, every
    frequency, the order of the children and [wordCount]. *)
Theorem insert_delete_restores_trie (toLowerCase : jsstring -> jsstring)
  (laws : LowerCaseLaws toLowerCase) (this : Trie) (w : jsstring) :
  reachable toLowerCase this ->
  w <> [] -> noSurrogatePair (toLowerCase w) ->
  App.search toLowerCase this (JSString w) = false ->
  App.delete toLowerCase
    (fst (App.insert toLowerCase this (JSString w))) (JSString w) =
  (this, Return true).
Proof.
  intros Hreach Hw Hpair Habsent. destruct w as [|unit rest]; [congruence|].
  rewrite search_valid in Habsent.
  rewrite insert_valid, delete_valid. cbn [fst root wordCount].
  rewrite deletePath_codePoints by assumption.
  rewrite insertFrom_deleteKeys;
    [now destruct this|apply (reachable_invariant Hreach)|assumption].
Qed.

Lemma insert_delete_restores_trie_witness :
  let this := fst (App.insert asciiLower newTrie (JSString (str "car"))) in
  reachable asciiLower this /\
  str "cat" <> [] /\ noSurrogatePair (asciiLower (str "cat")) /\
  App.search asciiLower this (JSString (str "cat")) = false /\
  App.delete asciiLower
    (fst (App.insert asciiLower this (JSString (str "cat"))))
    (JSString (str "cat")) =
  (this, Return true).
Proof.
  cbv zeta.
  assert (Hreach : reachable asciiLower
            (fst (App.insert asciiLower newTrie (JSString (str "car"))))).
  { exists [Insert (JSString (str "car"))]. reflexivity. }
  split; [exact Hreach|]. split; [discriminate|]. split; [reflexivity|].
  split; [reflexivity|].
  apply (@insert_delete_restores_trie asciiLower asciiLower_laws _ (str "cat")
           Hreach); [discriminate|reflexivity|reflexivity].
Defined.

(** X6. [delete] looks a word up by its code units and [insert] by its
    code points: when the two paths of a stored word differ (its
    lower-cased form has a surrogate pair), [delete] does not remove it,
    and [search] answers after the call what it answered before. *)
Theorem delete_misses_other_path (toLowerCase : jsstring -> jsstring)
  (this : Trie) (w : jsstring) :
  w <> [] ->
  codePoints (toLowerCase w) <> deletePath toLowerCase w ->
  App.search toLowerCase (fst (App.delete toLowerCase this (JSString w)))
    (JSString w) =
  App.search toLowerCase this (JSString w).
Proof.
  intros Hw Hne. now apply delete_search_other.
Qed.

Lemma delete_misses_other_path_witness :
  let w := [55357; 56832]%Z in
  let this := fst (App.insert asciiLower newTrie (JSString w)) in
  w <> [] /\
  codePoints (asciiLower w) <> deletePath asciiLower w /\
  App.search asciiLower this (JSString w) = true /\
  App.search asciiLower (fst (App.delete asciiLower this (JSString w)))
    (JSString w) =
  App.search asciiLower this (JSString w).
Proof.
  cbv zeta. split; [discriminate|]. split; [discriminate|].
  split; [reflexivity|].
  apply (@delete_misses_other_path asciiLower
           (fst (App.insert asciiLower newTrie (JSString [55357; 56832]%Z)))
           [55357; 56832]%Z); discriminate.
Defined.

(** ** Invariants of the trees built by calls *)

Lemma TrieNode_nested_ind (P : TrieNode -> Prop) :
  (forall v e f c, Forall (fun entry => P (snd entry)) c ->
                   P (mkTrieNode v e f c)) ->
  forall node, P node.
Proof.
  intros H. fix IH 1. intros [v e f c]. apply H.
  induction c as [|[k child] c IHc]; constructor; [apply IH|exact IHc].
Qed.

Lemma appStep_cases toLowerCase this o :
  fst (appStep toLowerCase this o) = this \/
  (exists s,
      fst (appStep toLowerCase this o) =
      mkTrie (fst (App.insertFrom (root this) (codePoints s) (wordCount this)))
             (snd (App.insertFrom (root this) (codePoints s) (wordCount this)))) \/
  (exists keys,
      fst (appStep toLowerCase this o) =
      mkTrie (snd (fst (deleteKeys (root this) keys (wordCount this))))
             (snd (deleteKeys (root this) keys (wordCount this)))).
Proof.
  destruct (word_shapes (operand o)) as [Hother|(unit & rest & Hw)].
  - left. destruct o as [word|word|word]; simpl in *; [|reflexivity|].
    + now rewrite (proj1 (invalid_input_cases toLowerCase this Hother)).
    + now rewrite (proj2 (invalid_input_cases toLowerCase this Hother)).
  - destruct o as [word|word|word]; simpl in Hw; subst word; cbn [appStep].
    + right. left. exists (toLowerCase (unit :: rest)). now rewrite insert_valid.
    + now left.
    + right. right. exists (deletePath toLowerCase (unit :: rest)).
      now rewrite delete_valid.
Qed.

(** A property of the root and the count that [insert] and [delete] keep
    holds after every sequence of calls. *)
Lemma appRun_preserves toLowerCase (P : Trie -> Prop) :
  (forall this s, P this ->
     P (mkTrie (fst (App.insertFrom (root this) (codePoints s) (wordCount this)))
               (snd (App.insertFrom (root this) (codePoints s)
                       (wordCount this))))) ->
  (forall this keys, P this ->
     P (mkTrie (snd (fst (deleteKeys (root this) keys (wordCount this))))
               (snd (deleteKeys (root this) keys (wordCount this))))) ->
  forall ops this, P this -> P (fst (appRun toLowerCase this ops)).
Proof.
  intros Hins Hdel. induction ops as [|o rest IH]; intros this H; [exact H|].
  cbn [appRun].
  assert (Hs : P (fst (appStep toLowerCase this o))).
  { destruct (appStep_cases toLowerCase this o) as [->|[[s ->]|[keys ->]]];
      auto. }
  destruct (appStep toLowerCase this o) as [this1 r]. cbn [fst] in Hs.
  specialize (IH this1 Hs).
  now destruct (appRun toLowerCase this1 rest).
Qed.

(** *** Keys *)

Lemma has_set (V : Type) (k k' : jsstring) (v : V) (m : list (jsstring * V)) :
  JsMap.has k' (JsMap.set k v m) =
  if jsstring_eq_dec k k' then true else JsMap.has k' m.
Proof.
  unfold JsMap.has. destruct (jsstring_eq_dec k k') as [<-|Hne].
  - now rewrite get_set_eq.
  - now rewrite get_set_ne.
Qed.

Lemma has_delete (V : Type) (k k' : jsstring) (m : list (jsstring * V)) :
  JsMap.has k' (JsMap.delete k m) =
  if jsstring_eq_dec k k' then false else JsMap.has k' m.
Proof.
  unfold JsMap.has. destruct (jsstring_eq_dec k k') as [<-|Hne].
  - now rewrite get_delete_eq.
  - now rewrite get_delete_ne.
Qed.

Lemma uniqueKeys_set (V : Type) (k : jsstring) (v : V)
  (m : list (jsstring * V)) :
  uniqueKeys m = true -> uniqueKeys (JsMap.set k v m) = true.
Proof.
  induction m as [|[k0 v0] m IH]; simpl; [reflexivity|].
  intros H. apply andb_true_iff in H as [H0 Hm].
  destruct (jsstring_eq_dec k k0) as [->|Hne]; simpl.
  - now rewrite H0, Hm.
  - rewrite has_set. destruct (jsstring_eq_dec k k0); [congruence|].
    now rewrite H0, IH.
Qed.

Lemma uniqueKeys_delete (V : Type) (k : jsstring) (m : list (jsstring * V)) :
  uniqueKeys m = true -> uniqueKeys (JsMap.delete k m) = true.
Proof.
  induction m as [|[k0 v0] m IH]; simpl; [reflexivity|].
  intros H. apply andb_true_iff in H as [H0 Hm].
  destruct (jsstring_eq_dec k k0) as [->|Hne]; simpl; [now apply IH|].
  rewrite has_delete. destruct (jsstring_eq_dec k k0); [congruence|].
  now rewrite H0, IH.
Qed.

Lemma forallb_set_entry (V : Type) (P : jsstring * V -> bool) (k : jsstring)
  (v : V) (m : list (jsstring * V)) :
  forallb P m = true -> P (k, v) = true ->
  forallb P (JsMap.set k v m) = true.
Proof.
  induction m as [|[k0 v0] m IH]; simpl; intros Hm Hv.
  - now rewrite Hv.
  - apply andb_true_iff in Hm as [H0 Hm].
    destruct (jsstring_eq_dec k k0) as [->|Hne]; simpl.
    + now rewrite Hv, Hm.
    + now rewrite H0, IH.
Qed.

Lemma jsstring_eqb_eq a b : jsstring_eqb a b = true <-> a = b.
Proof.
  unfold jsstring_eqb. destruct (jsstring_eq_dec a b); split; congruence.
Qed.

Lemma wellKeyed_eq node :
  wellKeyed node =
  uniqueKeys (children node) &&
  forallb (fun entry : jsstring * TrieNode =>
             let (key, child) := entry in
             jsstring_eqb (value child) key && wellKeyed child)
          (children node).
Proof. now destruct node. Qed.

Lemma wellKeyed_child node key child :
  wellKeyed node = true -> In (key, child) (children node) ->
  value child = key /\ wellKeyed child = true.
Proof.
  rewrite wellKeyed_eq. intros H Hin.
  apply andb_true_iff in H as [_ H].
  rewrite forallb_forall in H. specialize (H _ Hin). simpl in H.
  apply andb_true_iff in H as [H1 H2].
  split; [now apply jsstring_eqb_eq|assumption].
Qed.

Lemma wellKeyed_childOrNew node char :
  wellKeyed node = true ->
  value (childOrNew node char) = char /\
  wellKeyed (childOrNew node char) = true.
Proof.
  intros H. unfold childOrNew.
  destruct (JsMap.get char (children node)) as [child|] eqn:E; [|now split].
  apply get_In in E. now apply (wellKeyed_child _ _ _ H E).
Qed.

Lemma insertFrom_wellKeyed path : forall node wc,
  wellKeyed node = true ->
  wellKeyed (fst (App.insertFrom node path wc)) = true.
Proof.
  induction path as [|char rest IH]; intros node wc H.
  - cbn [App.insertFrom App.markEnd fst].
    rewrite wellKeyed_eq in H |- *. exact H.
  - rewrite insertFrom_cons. cbn [fst].
    destruct (wellKeyed_childOrNew node char H) as [Hv Hc].
    rewrite wellKeyed_eq in H. apply andb_true_iff in H as [Hu Hall].
    rewrite wellKeyed_eq.
    change (children (setChildren node ?c)) with c.
    rewrite uniqueKeys_set by assumption. cbn [andb].
    apply forallb_set_entry; [assumption|].
    rewrite insertFrom_value, Hv, IH by assumption.
    now rewrite (proj2 (jsstring_eqb_eq _ _) eq_refl).
Qed.

Lemma deleteKeys_wellKeyed keys : forall node wc,
  wellKeyed node = true ->
  wellKeyed (snd (fst (deleteKeys node keys wc))) = true.
Proof.
  induction keys as [|char rest IH]; intros node wc H.
  - cbn [deleteKeys]. destruct (isEndOfWord node); cbn [negb fst snd];
      [|exact H].
    rewrite wellKeyed_eq in H |- *. exact H.
  - rewrite deleteKeys_cons.
    destruct (JsMap.get char (children node)) as [child|] eqn:E;
      [|exact H].
    destruct (wellKeyed_child _ _ _ H (get_In _ _ E)) as [Hv Hc].
    specialize (IH child wc Hc).
    pose proof (deleteKeys_value rest child wc) as Hval.
    rewrite wellKeyed_eq in H. apply andb_true_iff in H as [Hu Hall].
    destruct (deleteKeys child rest wc) as [[[] child'] wc'];
      cbn [fst snd] in *; rewrite wellKeyed_eq;
      change (children (setChildren node ?c)) with c.
    + rewrite uniqueKeys_delete by assumption. cbn [andb].
      now apply forallb_delete.
    + rewrite uniqueKeys_set by assumption. cbn [andb].
      apply forallb_set_entry; [assumption|].
      rewrite Hval, Hv, IH.
      now rewrite (proj2 (jsstring_eqb_eq _ _) eq_refl).
Qed.

Lemma codePoints_isCodePoint_bounded n : forall s,
  length s <= n -> forallb isCodePoint (codePoints s) = true.
Proof.
  induction n as [|n IH]; intros [|u [|v rest]] Hlen; simpl in *;
    try reflexivity; try lia.
  destruct (isLeadingSurrogate u && isTrailingSurrogate v) eqn:E.
  - cbn [forallb isCodePoint]. rewrite E. apply IH. lia.
  - cbn [forallb isCodePoint andb].
    apply (IH (v :: rest)). simpl. lia.
Qed.

Lemma codePoints_isCodePoint s : forallb isCodePoint (codePoints s) = true.
Proof. now apply codePoints_isCodePoint_bounded with (n := length s). Qed.

Lemma codePointKeys_eq node :
  codePointKeys node =
  forallb (fun entry : jsstring * TrieNode =>
             let (key, child) := entry in
             isCodePoint key && codePointKeys child)
          (children node).
Proof. now destruct node. Qed.

Lemma codePointKeys_childOrNew node char :
  codePointKeys node = true -> codePointKeys (childOrNew node char) = true.
Proof.
  intros H. unfold childOrNew.
  destruct (JsMap.get char (children node)) as [child|] eqn:E; [|reflexivity].
  apply get_In in E. rewrite codePointKeys_eq, forallb_forall in H.
  specialize (H _ E). simpl in H. now apply andb_true_iff in H as [_ H].
Qed.

Lemma insertFrom_codePointKeys path : forall node wc,
  forallb isCodePoint path = true -> codePointKeys node = true ->
  codePointKeys (fst (App.insertFrom node path wc)) = true.
Proof.
  induction path as [|char rest IH]; intros node wc Hp H.
  - cbn [App.insertFrom App.markEnd fst].
    rewrite codePointKeys_eq in H |- *. exact H.
  - rewrite insertFrom_cons. cbn [fst].
    simpl in Hp. apply andb_true_iff in Hp as [Hc Hp].
    rewrite codePointKeys_eq.
    change (children (setChildren node ?c)) with c.
    apply forallb_set_entry; [now rewrite <- codePointKeys_eq|].
    rewrite Hc, IH; auto using codePointKeys_childOrNew.
Qed.

Lemma deleteKeys_codePointKeys keys : forall node wc,
  codePointKeys node = true ->
  codePointKeys (snd (fst (deleteKeys node keys wc))) = true.
Proof.
  induction keys as [|char rest IH]; intros node wc H.
  - cbn [deleteKeys]. destruct (isEndOfWord node); cbn [negb fst snd];
      [|exact H].
    rewrite codePointKeys_eq in H |- *. exact H.
  - rewrite deleteKeys_cons.
    destruct (JsMap.get char (children node)) as [child|] eqn:E;
      [|exact H].
    pose proof (get_In _ _ E) as Hin.
    rewrite codePointKeys_eq in H.
    pose proof H as Hall. rewrite forallb_forall in Hall.
    specialize (Hall _ Hin). simpl in Hall.
    apply andb_true_iff in Hall as [Hk Hc].
    specialize (IH child wc Hc).
    destruct (deleteKeys child rest wc) as [[[] child'] wc'];
      cbn [fst snd] in *; rewrite codePointKeys_eq;
      change (children (setChildren node ?c)) with c.
    + now apply forallb_delete.
    + apply forallb_set_entry; [assumption|]. now rewrite Hk, IH.
Qed.

Lemma wellKeyed_descendant node n :
  descendant node n -> wellKeyed node = true -> wellKeyed n = true.
Proof.
  induction 1 as [node key child Hin|node key child n Hin Hd IH]; intros H.
  - now apply (wellKeyed_child _ _ _ H Hin).
  - apply IH. now apply (wellKeyed_child _ _ _ H Hin).
Qed.

Lemma codePointKeys_descendant node n :
  descendant node n -> codePointKeys node = true -> codePointKeys n = true.
Proof.
  assert (Hchild : forall node key child,
             codePointKeys node = true -> In (key, child) (children node) ->
             codePointKeys child = true).
  { intros m key child H Hin. rewrite codePointKeys_eq, forallb_forall in H.
    specialize (H _ Hin). simpl in H. now apply andb_true_iff in H as [_ H]. }
  induction 1 as [node key child Hin|node key child n Hin Hd IH]; intros H.
  - now apply (Hchild _ _ _ H Hin).
  - apply IH. now apply (Hchild _ _ _ H Hin).
Qed.

Lemma uniqueKeys_In_get (V : Type) (k : jsstring) (v : V)
  (m : list (jsstring * V)) :
  uniqueKeys m = true -> In (k, v) m -> JsMap.get k m = Some v.
Proof.
  induction m as [|[k0 v0] m IH]; simpl; [intros _ []|].
  intros H Hin. apply andb_true_iff in H as [H0 Hm].
  destruct Hin as [[= -> ->]|Hin].
  - destruct (jsstring_eq_dec k k); congruence.
  - destruct (jsstring_eq_dec k k0) as [->|Hne]; [|now apply IH].
    specialize (IH Hm Hin). unfold JsMap.has in H0. now rewrite IH in H0.
Qed.

(** X7. In every trie built by calls, a child carries as its value the key
    it is stored under, the key is a single code point, and looking the
    key up in the map of its parent finds that child and no other. *)
Theorem keys_of_built_trie (toLowerCase : jsstring -> jsstring)
  (ops : list (operation JSValue)) (node child : TrieNode) (key : jsstring) :
  node = root (fst (appRun toLowerCase newTrie ops)) \/
  descendant (root (fst (appRun toLowerCase newTrie ops))) node ->
  In (key, child) (children node) ->
  value child = key /\ isCodePoint key = true /\
  JsMap.get key (children node) = Some child.
Proof.
  intros Hnode Hin.
  assert (Hinv : wellKeyed (root (fst (appRun toLowerCase newTrie ops))) = true
                 /\ codePointKeys
                      (root (fst (appRun toLowerCase newTrie ops))) = true).
  { apply (@appRun_preserves toLowerCase
             (fun t => wellKeyed (root t) = true /\
                       codePointKeys (root t) = true)).
    - intros this s [H1 H2]. cbn [root]. split.
      + now apply insertFrom_wellKeyed.
      + apply insertFrom_codePointKeys;
          [apply codePoints_isCodePoint|assumption].
    - intros this keys [H1 H2]. cbn [root]. split.
      + now apply deleteKeys_wellKeyed.
      + now apply deleteKeys_codePointKeys.
    - now split. }
  destruct Hinv as [Hw Hc].
  assert (Hnw : wellKeyed node = true /\ codePointKeys node = true).
  { destruct Hnode as [->|Hd]; [now split|]. split.
    - now apply (wellKeyed_descendant Hd).
    - now apply (codePointKeys_descendant Hd). }
  destruct Hnw as [Hnw Hnc].
  split; [now apply (wellKeyed_child _ _ _ Hnw Hin)|]. split.
  - rewrite codePointKeys_eq, forallb_forall in Hnc.
    specialize (Hnc _ Hin). simpl in Hnc.
    now apply andb_true_iff in Hnc as [Hk _].
  - rewrite wellKeyed_eq in Hnw. apply andb_true_iff in Hnw as [Hu _].
    now apply uniqueKeys_In_get.
Qed.

Lemma keys_of_built_trie_witness :
  let ops := [Insert (JSString (str "cat"))] in
  let node := root (fst (appRun asciiLower newTrie ops)) in
  let child := childOrNew node (str "c") in
  (node = root (fst (appRun asciiLower newTrie ops)) \/
   descendant (root (fst (appRun asciiLower newTrie ops))) node) /\
  In (str "c", child) (children node) /\
  value child = str "c" /\ isCodePoint (str "c") = true /\
  JsMap.get (str "c") (children node) = Some child.
Proof.
  cbv zeta.
  assert (Hin : In (str "c",
                    childOrNew
                      (root (fst (appRun asciiLower newTrie
                                    [Insert (JSString (str "cat"))])))
                      (str "c"))
                   (children
                      (root (fst (appRun asciiLower newTrie
                                    [Insert (JSString (str "cat"))]))))).
  { left. reflexivity. }
  split; [now left|]. split; [exact Hin|].
  apply (@keys_of_built_trie asciiLower [Insert (JSString (str "cat"))]
           _ _ _ (or_introl eq_refl) Hin).
Defined.

(** *** Frequencies *)

Lemma frequenciesOk_eq node :
  frequenciesOk node =
  (0 <=? frequency node)%Z &&
  (if isEndOfWord node then (1 <=? frequency node)%Z else true) &&
  forallb (fun entry : jsstring * TrieNode =>
             let (_, child) := entry in frequenciesOk child)
          (children node).
Proof. now destruct node. Qed.

Lemma frequenciesOk_child node key child :
  frequenciesOk node = true -> In (key, child) (children node) ->
  frequenciesOk child = true.
Proof.
  rewrite frequenciesOk_eq. intros H Hin.
  apply andb_true_iff in H as [_ H]. rewrite forallb_forall in H.
  exact (H _ Hin).
Qed.

Lemma frequenciesOk_childOrNew node char :
  frequenciesOk node = true -> frequenciesOk (childOrNew node char) = true.
Proof.
  intros H. unfold childOrNew.
  destruct (JsMap.get char (children node)) as [child|] eqn:E; [|reflexivity].
  apply get_In in E. now apply (frequenciesOk_child _ _ _ H E).
Qed.

Lemma insertFrom_frequenciesOk path : forall node wc,
  frequenciesOk node = true ->
  frequenciesOk (fst (App.insertFrom node path wc)) = true.
Proof.
  induction path as [|char rest IH]; intros node wc H.
  - cbn [App.insertFrom App.markEnd fst].
    rewrite frequenciesOk_eq in H |- *. cbn [frequency isEndOfWord children].
    apply andb_true_iff in H as [H Hall].
    apply andb_true_iff in H as [H0 _]. apply Z.leb_le in H0.
    rewrite Hall.
    replace (0 <=? frequency node + 1)%Z with true
      by (symmetry; apply Z.leb_le; lia).
    replace (1 <=? frequency node + 1)%Z with true
      by (symmetry; apply Z.leb_le; lia).
    reflexivity.
  - rewrite insertFrom_cons. cbn [fst].
    pose proof (frequenciesOk_childOrNew node char H) as Hc.
    rewrite frequenciesOk_eq in H |- *.
    change (children (setChildren node ?c)) with c.
    change (frequency (setChildren node ?c)) with (frequency node).
    change (isEndOfWord (setChildren node ?c)) with (isEndOfWord node).
    apply andb_true_iff in H as [H Hall]. rewrite H. cbn [andb].
    apply forallb_set_entry; [assumption|]. now apply IH.
Qed.

Lemma deleteKeys_frequenciesOk keys : forall node wc,
  frequenciesOk node = true ->
  frequenciesOk (snd (fst (deleteKeys node keys wc))) = true.
Proof.
  induction keys as [|char rest IH]; intros node wc H.
  - cbn [deleteKeys]. destruct (isEndOfWord node) eqn:E; cbn [negb fst snd];
      [|exact H].
    rewrite frequenciesOk_eq in H |- *. cbn [frequency isEndOfWord children].
    rewrite E in H.
    apply andb_true_iff in H as [H Hall].
    apply andb_true_iff in H as [_ H1]. apply Z.leb_le in H1.
    rewrite Hall.
    replace (0 <=? frequency node - 1)%Z with true
      by (symmetry; apply Z.leb_le; lia).
    reflexivity.
  - rewrite deleteKeys_cons.
    destruct (JsMap.get char (children node)) as [child|] eqn:E;
      [|exact H].
    pose proof (frequenciesOk_child _ _ _ H (get_In _ _ E)) as Hc.
    specialize (IH child wc Hc).
    rewrite frequenciesOk_eq in H. apply andb_true_iff in H as [H Hall].
    destruct (deleteKeys child rest wc) as [[[] child'] wc'];
      cbn [fst snd] in *; rewrite frequenciesOk_eq;
      change (children (setChildren node ?c)) with c;
      change (frequency (setChildren node ?c)) with (frequency node);
      change (isEndOfWord (setChildren node ?c)) with (isEndOfWord node);
      rewrite H; cbn [andb].
    + now apply forallb_delete.
    + now apply forallb_set_entry.
Qed.

Lemma frequenciesOk_descendant node n :
  descendant node n -> frequenciesOk node = true -> frequenciesOk n = true.
Proof.
  induction 1 as [node key child Hin|node key child n Hin Hd IH]; intros H.
  - now apply (frequenciesOk_child _ _ _ H Hin).
  - apply IH. now apply (frequenciesOk_child _ _ _ H Hin).
Qed.

(** X8. In every trie built by calls no frequency is negative, and the
    frequency of a node that ends a word is at least 1: [delete]
    decrements the frequency only of a node that ends a word. *)
Theorem frequencies_of_built_trie (toLowerCase : jsstring -> jsstring)
  (ops : list (operation JSValue)) (node : TrieNode) :
  node = root (fst (appRun toLowerCase newTrie ops)) \/
  descendant (root (fst (appRun toLowerCase newTrie ops))) node ->
  (0 <= frequency node)%Z /\
  (isEndOfWord node = true -> 1 <= frequency node)%Z.
Proof.
  intros Hnode.
  assert (Hinv : frequenciesOk
                   (root (fst (appRun toLowerCase newTrie ops))) = true).
  { apply (@appRun_preserves toLowerCase
             (fun t => frequenciesOk (root t) = true)).
    - intros this s H. now apply insertFrom_frequenciesOk.
    - intros this keys H. now apply deleteKeys_frequenciesOk.
    - reflexivity. }
  assert (Hn : frequenciesOk node = true).
  { destruct Hnode as [->|Hd]; [assumption|].
    now apply (frequenciesOk_descendant Hd). }
  rewrite frequenciesOk_eq in Hn.
  apply andb_true_iff in Hn as [Hn _]. apply andb_true_iff in Hn as [H0 H1].
  split; [now apply Z.leb_le|].
  intros He. rewrite He in H1. now apply Z.leb_le.
Qed.

Lemma frequencies_of_built_trie_witness :
  let ops := [Insert (JSString (str "a")); Insert (JSString (str "a"));
              Delete (JSString (str "a"))] in
  let node := root (fst (appRun asciiLower newTrie ops)) in
  (node = root (fst (appRun asciiLower newTrie ops)) \/
   descendant (root (fst (appRun asciiLower newTrie ops))) node) /\
  (0 <= frequency node)%Z /\
  (isEndOfWord node = true -> 1 <= frequency node)%Z.
Proof.
  cbv zeta. split; [now left|].
  apply (@frequencies_of_built_trie asciiLower
           [Insert (JSString (str "a")); Insert (JSString (str "a"));
            Delete (JSString (str "a"))] _ (or_introl eq_refl)).
Defined.

(** *** The count of words *)

Lemma countEndOfWord_eq node :
  countEndOfWord node =
  ((if isEndOfWord node then 1 else 0) + countBelow (children node))%Z.
Proof. now destruct node. Qed.

Lemma countBelow_set k v m :
  countBelow (JsMap.set k v m) =
  (countBelow m
   - match JsMap.get k m with Some old => countEndOfWord old | None => 0 end
   + countEndOfWord v)%Z.
Proof.
  induction m as [|[k0 v0] m IH]; simpl; [lia|].
  destruct (jsstring_eq_dec k k0) as [->|Hne]; simpl; [lia|].
  fold (countBelow (JsMap.set k v m)). fold (countBelow m). lia.
Qed.

Lemma delete_absent_key (V : Type) (k : jsstring) (m : list (jsstring * V)) :
  JsMap.get k m = None -> JsMap.delete k m = m.
Proof.
  induction m as [|[k0 v0] m IH]; simpl; [reflexivity|].
  destruct (jsstring_eq_dec k k0); [discriminate|].
  intros H. now rewrite IH.
Qed.

Lemma countBelow_delete k m :
  uniqueKeys m = true ->
  countBelow (JsMap.delete k m) =
  (countBelow m
   - match JsMap.get k m with Some old => countEndOfWord old | None => 0 end)%Z.
Proof.
  induction m as [|[k0 v0] m IH]; simpl; [reflexivity|].
  intros H. apply andb_true_iff in H as [H0 Hm].
  destruct (jsstring_eq_dec k k0) as [->|Hne]; simpl.
  - rewrite delete_absent_key.
    + fold (countBelow m). lia.
    + unfold JsMap.has in H0. now destruct (JsMap.get k0 m).
  - fold (countBelow (JsMap.delete k m)). fold (countBelow m).
    rewrite IH by assumption. lia.
Qed.

Lemma countEndOfWord_childOrNew node char :
  countEndOfWord (childOrNew node char) =
  match JsMap.get char (children node) with
  | Some old => countEndOfWord old
  | None => 0%Z
  end.
Proof.
  unfold childOrNew. now destruct (JsMap.get char (children node)).
Qed.

Lemma insertFrom_countEndOfWord path : forall node wc,
  countEndOfWord (fst (App.insertFrom node path wc)) =
  (countEndOfWord node + if App.searchFrom node path then 0 else 1)%Z.
Proof.
  induction path as [|char rest IH]; intros node wc.
  - cbn [App.insertFrom App.markEnd fst App.searchFrom].
    rewrite !countEndOfWord_eq. cbn [isEndOfWord children].
    destruct (isEndOfWord node); lia.
  - rewrite insertFrom_cons. cbn [fst].
    rewrite <- (searchFrom_childOrNew node).
    rewrite !countEndOfWord_eq.
    change (children (setChildren node ?c)) with c.
    change (isEndOfWord (setChildren node ?c)) with (isEndOfWord node).
    rewrite countBelow_set, IH, countEndOfWord_childOrNew. lia.
Qed.

Lemma deleteKeys_countEndOfWord keys : forall node wc,
  wellKeyed node = true ->
  countEndOfWord (snd (fst (deleteKeys node keys wc))) =
  (countEndOfWord node - if App.searchFrom node keys then 1 else 0)%Z.
Proof.
  induction keys as [|char rest IH]; intros node wc H.
  - cbn [deleteKeys App.searchFrom].
    destruct (isEndOfWord node) eqn:E; cbn [negb fst snd]; [|lia].
    rewrite !countEndOfWord_eq. cbn [isEndOfWord children]. rewrite E. lia.
  - rewrite deleteKeys_cons, searchFrom_cons.
    destruct (JsMap.get char (children node)) as [child|] eqn:E;
      [|cbn [fst snd]; lia].
    destruct (wellKeyed_child _ _ _ H (get_In _ _ E)) as [_ Hc].
    specialize (IH child wc Hc).
    pose proof (deleteKeys_true rest child wc) as Htrue.
    rewrite wellKeyed_eq in H. apply andb_true_iff in H as [Hu _].
    destruct (deleteKeys child rest wc) as [[[] child'] wc'];
      cbn [fst snd] in *; rewrite !countEndOfWord_eq;
      change (children (setChildren node ?c)) with c;
      change (isEndOfWord (setChildren node ?c)) with (isEndOfWord node).
    + destruct Htrue as [Hc' He']; [reflexivity|].
      rewrite countEndOfWord_eq, Hc', He' in IH. simpl in IH.
      rewrite countBelow_delete, E by assumption. lia.
    + rewrite countBelow_set, E. lia.
Qed.

Lemma countEndOfWord_nonneg node : (0 <= countEndOfWord node)%Z.
Proof.
  induction node as [v e f c IH] using TrieNode_nested_ind.
  rewrite countEndOfWord_eq. cbn [isEndOfWord children].
  assert (0 <= countBelow c)%Z.
  { induction IH as [|[k child] c Hchild _ IHc]; simpl; [lia|].
    fold (countBelow c). simpl in Hchild. lia. }
  destruct e; lia.
Qed.

Lemma wordCount_counts_words_aux toLowerCase ops :
  wordCount (fst (appRun toLowerCase newTrie ops)) =
  countEndOfWord (root (fst (appRun toLowerCase newTrie ops))) /\
  wellKeyed (root (fst (appRun toLowerCase newTrie ops))) = true.
Proof.
  apply (@appRun_preserves toLowerCase
           (fun t => wordCount t = countEndOfWord (root t) /\
                     wellKeyed (root t) = true)).
  - intros this s [H2 H1]. cbn [root wordCount]. split.
    + rewrite insertFrom_wordCount, insertFrom_countEndOfWord, H2.
      destruct (App.searchFrom (root this) (codePoints s)); lia.
    + now apply insertFrom_wellKeyed.
  - intros this keys [H2 H1]. cbn [root wordCount]. split.
    + rewrite deleteKeys_wordCount, deleteKeys_countEndOfWord, H2
        by assumption.
      destruct (App.searchFrom (root this) keys); lia.
    + now apply deleteKeys_wellKeyed.
  - now split.
Qed.

(** X9. After every sequence of calls on a new trie, [wordCount] is the
    number of nodes that end a word, and so is never negative. *)
Theorem wordCount_counts_words (toLowerCase : jsstring -> jsstring)
  (ops : list (operation JSValue)) :
  wordCount (fst (appRun toLowerCase newTrie ops)) =
  countEndOfWord (root (fst (appRun toLowerCase newTrie ops))) /\
  (0 <= wordCount (fst (appRun toLowerCase newTrie ops)))%Z.
Proof.
  destruct (wordCount_counts_words_aux toLowerCase ops) as [Hcount _].
  split; [exact Hcount|].
  rewrite Hcount. apply countEndOfWord_nonneg.
Qed.

(** ** The exported hierarchy determines the trie *)

Lemma convertToD3Format_fields node parentName depth :
  d3_value (App.convertToD3Format node parentName depth) = value node /\
  d3_isEndOfWord (App.convertToD3Format node parentName depth) =
    isEndOfWord node /\
  d3_frequency (App.convertToD3Format node parentName depth) =
    frequency node /\
  d3_depth (App.convertToD3Format node parentName depth) = depth.
Proof. now destruct node. Qed.

Lemma nodeOfRecord_eq record :
  nodeOfRecord record =
  mkTrieNode (d3_value record) (d3_isEndOfWord record) (d3_frequency record)
    (match d3_children record with
     | Some records => map (fun r => (d3_value r, nodeOfRecord r)) records
     | None => []
     end).
Proof. now destruct record. Qed.

Lemma nodeOfRecord_convertToD3Format node : forall parentName depth,
  wellKeyed node = true ->
  nodeOfRecord (App.convertToD3Format node parentName depth) = node.
Proof.
  induction node as [v e f c IH] using TrieNode_nested_ind.
  intros parentName depth Hkeys.
  rewrite nodeOfRecord_eq, convertToD3Format_children.
  destruct (convertToD3Format_fields (mkTrieNode v e f c) parentName depth)
    as (-> & -> & -> & _).
  cbn [value isEndOfWord frequency children]. f_equal.
  assert (Hall : forall key child, In (key, child) c ->
                   value child = key /\ wellKeyed child = true).
  { intros key child Hin. now apply (wellKeyed_child _ _ _ Hkeys Hin). }
  clear Hkeys. destruct c as [|entry c]; [reflexivity|].
  rewrite map_map.
  generalize dependent (parentName ++ valueOrRoot v).
  generalize (depth + 1).
  induction IH as [|[key child] rest Hchild _ IHrest]; intros d pn;
    [reflexivity|].
  cbn [map snd]. simpl in Hchild.
  destruct (Hall key child (or_introl eq_refl)) as [Hv Hw].
  destruct (convertToD3Format_fields child pn d) as (-> & _).
  rewrite Hchild, Hv by assumption. f_equal.
  apply IHrest. intros k ch Hin. apply Hall. now right.
Qed.

Lemma built_wellKeyed_counted toLowerCase ops :
  wellKeyed (root (fst (appRun toLowerCase newTrie ops))) = true.
Proof.
  apply (@appRun_preserves toLowerCase (fun t => wellKeyed (root t) = true)).
  - intros this s H. now apply insertFrom_wellKeyed.
  - intros this keys H. now apply deleteKeys_wellKeyed.
  - reflexivity.
Qed.

(** X10. The export loses nothing of a trie built by calls: the root and
    all nodes below it can be read back from the exported hierarchy, so
    two built tries with the same export are the same trie, [wordCount]
    included. *)
Theorem export_determines_trie (toLowerCase : jsstring -> jsstring)
  (ops1 ops2 : list (operation JSValue)) :
  nodeOfRecord (App.getD3Data (fst (appRun toLowerCase newTrie ops1))) =
    root (fst (appRun toLowerCase newTrie ops1)) /\
  (App.getD3Data (fst (appRun toLowerCase newTrie ops1)) =
   App.getD3Data (fst (appRun toLowerCase newTrie ops2)) ->
   fst (appRun toLowerCase newTrie ops1) =
   fst (appRun toLowerCase newTrie ops2)).
Proof.
  assert (Hback : forall ops,
             nodeOfRecord
               (App.getD3Data (fst (appRun toLowerCase newTrie ops))) =
             root (fst (appRun toLowerCase newTrie ops))).
  { intros ops. unfold App.getD3Data.
    apply nodeOfRecord_convertToD3Format, built_wellKeyed_counted. }
  split; [apply Hback|].
  intros Heq.
  assert (Hroot : root (fst (appRun toLowerCase newTrie ops1)) =
                  root (fst (appRun toLowerCase newTrie ops2))).
  { now rewrite <- (Hback ops1), <- (Hback ops2), Heq. }
  pose proof (proj1 (wordCount_counts_words_aux toLowerCase ops1)) as H1.
  pose proof (proj1 (wordCount_counts_words_aux toLowerCase ops2)) as H2.
  destruct (fst (appRun toLowerCase newTrie ops1)) as [r1 c1].
  destruct (fst (appRun toLowerCase newTrie ops2)) as [r2 c2].
  cbn [root wordCount] in *. subst r2. congruence.
Qed.

Lemma export_determines_trie_witness :
  let ops1 := [Insert (JSString (str "ab")); Insert (JSString (str "ac"));
               Delete (JSString (str "ac"))] in
  let ops2 := [Insert (JSString (str "AB"))] in
  App.getD3Data (fst (appRun asciiLower newTrie ops1)) =
  App.getD3Data (fst (appRun asciiLower newTrie ops2)) /\
  fst (appRun asciiLower newTrie ops1) = fst (appRun asciiLower newTrie ops2).
Proof.
  cbv zeta. split; [reflexivity|].
  apply (proj2 (export_determines_trie asciiLower
                  [Insert (JSString (str "ab")); Insert (JSString (str "ac"));
                   Delete (JSString (str "ac"))]
                  [Insert (JSString (str "AB"))])).
  reflexivity.
Defined.

Lemma recordCount_eq record :
  recordCount record =
  S (match d3_children record with
     | Some records => fold_right (fun r acc => recordCount r + acc) 0 records
     | None => 0
     end).
Proof. now destruct record. Qed.

Lemma nodeCount_eq node :
  nodeCount node =
  S (fold_right (fun (entry : jsstring * TrieNode) acc =>
                   nodeCount (snd entry) + acc) 0 (children node)).
Proof.
  destruct node as [v e f c]. cbn [nodeCount children]. f_equal.
  induction c as [|[k child] c IH]; simpl; [reflexivity|]. now rewrite IH.
Qed.

(** X11. The exported hierarchy has exactly one record for every node of
    the trie, the root included, and the depth recorded at the root is
    0. *)
Theorem export_one_record_per_node (this : Trie) :
  recordCount (App.getD3Data this) = nodeCount (root this) /\
  d3_depth (App.getD3Data this) = 0.
Proof.
  split; [|now destruct this as [[v e f c] wc]].
  unfold App.getD3Data. generalize (@nil Z). generalize 0.
  induction (root this) as [v e f c IH] using TrieNode_nested_ind.
  intros depth parentName.
  rewrite recordCount_eq, convertToD3Format_children, nodeCount_eq.
  cbn [children value]. f_equal.
  destruct c as [|entry c]; [reflexivity|].
  generalize dependent (parentName ++ valueOrRoot v).
  generalize (depth + 1).
  induction IH as [|[key child] rest Hchild _ IHrest]; intros d pn;
    [reflexivity|].
  cbn [map fold_right snd]. simpl in Hchild.
  now rewrite Hchild, IHrest.
Qed.

(** ** The component's trie *)

Lemma TrieJs_insert_path this w :
  TrieJs.insert this w =
  (mkTrie (fst (App.insertFrom (root this) (codePoints w) (wordCount this)))
          (snd (App.insertFrom (root this) (codePoints w) (wordCount this))),
   true).
Proof.
  unfold TrieJs.insert. rewrite TrieJs_insertFrom.
  now destruct (App.insertFrom _ _ _).
Qed.

Lemma trieJsStep_paths this o q :
  App.searchFrom (root (fst (trieJsStep this o))) q =
  applyPath (App.searchFrom (root this)) (trieJsPathOperation o) q.
Proof.
  destruct o as [w|w|w]; cbn [trieJsStep trieJsPathOperation applyPath];
    [|reflexivity|].
  - rewrite TrieJs_insert_path. cbn [fst root].
    destruct (path_eqb q _) eqn:E.
    + apply path_eqb_eq in E as ->. apply insertFrom_search.
    + apply insertFrom_search_other. intros ->.
      now rewrite (proj2 (path_eqb_eq _ _) eq_refl) in E.
  - rewrite TrieJs_delete_keys. cbn [fst root].
    destruct (path_eqb q _) eqn:E.
    + apply path_eqb_eq in E as ->. apply deleteKeys_search.
    + apply deleteKeys_search_other. intros ->.
      now rewrite (proj2 (path_eqb_eq _ _) eq_refl) in E.
Qed.

Lemma trieJsRun_paths ops : forall this q,
  App.searchFrom (root (fst (trieJsRun this ops))) q =
  fold_left applyPath (map trieJsPathOperation ops)
    (App.searchFrom (root this)) q.
Proof.
  induction ops as [|o rest IH]; intros this q; [reflexivity|].
  cbn [trieJsRun map fold_left].
  pose proof (trieJsStep_paths this o) as Hstep.
  destruct (trieJsStep this o) as [this1 r]. cbn [fst] in Hstep.
  specialize (IH this1 q).
  destruct (trieJsRun this1 rest) as [this2 rs]. cbn [fst] in *.
  rewrite IH. now apply fold_applyPath_ext.
Qed.

(** X12. The component's trie is a set of paths as well, without
    validation and without lower-casing: after any sequence of calls on a
    new trie, [search(w)] is the membership of the code points of [w] in
    the set obtained by adding the code points of the word at every
    [insert] and removing its code units at every [delete].  The empty
    string is a word like any other (its path is the root), and words that
    differ in case are different words. *)
Theorem component_search_is_membership (ops : list (operation jsstring))
  (w : jsstring) :
  TrieJs.search (fst (trieJsRun newTrie ops)) w =
  storedPaths (map trieJsPathOperation ops) (codePoints w).
Proof.
  unfold TrieJs.search. rewrite TrieJs_searchFrom, trieJsRun_paths.
  unfold storedPaths. apply fold_applyPath_ext. intros [|c q]; reflexivity.
Qed.

Lemma trieJsRun_preserves (P : Trie -> Prop) :
  (forall this path, P this ->
     P (mkTrie (fst (App.insertFrom (root this) path (wordCount this)))
               (snd (App.insertFrom (root this) path (wordCount this))))) ->
  (forall this keys, P this ->
     P (mkTrie (snd (fst (deleteKeys (root this) keys (wordCount this))))
               (snd (deleteKeys (root this) keys (wordCount this))))) ->
  forall ops this, P this -> P (fst (trieJsRun this ops)).
Proof.
  intros Hins Hdel. induction ops as [|o rest IH]; intros this H; [exact H|].
  cbn [trieJsRun].
  assert (Hs : P (fst (trieJsStep this o))).
  { destruct o as [w|w|w]; cbn [trieJsStep].
    - rewrite TrieJs_insert_path. now apply Hins.
    - exact H.
    - rewrite TrieJs_delete_keys. now apply Hdel. }
  destruct (trieJsStep this o) as [this1 r]. cbn [fst] in Hs.
  specialize (IH this1 Hs).
  now destruct (trieJsRun this1 rest).
Qed.

(** X13. The component's trie keeps the invariants of the application's
    trie: after any sequence of calls on a new trie, no node below the
    root is childless without ending a word, [wordCount] is the number of
    nodes that end a word and is not negative, and no frequency is
    negative. *)
Theorem component_invariants (ops : list (operation jsstring)) :
  (forall node,
      descendant (root (fst (trieJsRun newTrie ops))) node ->
      ~ (children node = [] /\ isEndOfWord node = false) /\
      (0 <= frequency node)%Z) /\
  wordCount (fst (trieJsRun newTrie ops)) =
    countEndOfWord (root (fst (trieJsRun newTrie ops))) /\
  (0 <= wordCount (fst (trieJsRun newTrie ops)))%Z.
Proof.
  assert (Hinv :
            (fun t => noDeadBelow (root t) = true /\
                      frequenciesOk (root t) = true /\
                      wellKeyed (root t) = true /\
                      wordCount t = countEndOfWord (root t))
              (fst (trieJsRun newTrie ops))).
  { apply trieJsRun_preserves.
    - intros this path (H1 & H2 & H3 & H4). cbn [root wordCount].
      repeat split.
      + now apply insertFrom_noDead.
      + now apply insertFrom_frequenciesOk.
      + now apply insertFrom_wellKeyed.
      + rewrite insertFrom_wordCount, insertFrom_countEndOfWord, H4.
        destruct (App.searchFrom (root this) path); lia.
    - intros this keys (H1 & H2 & H3 & H4). cbn [root wordCount].
      repeat split.
      + now apply deleteKeys_noDead.
      + now apply deleteKeys_frequenciesOk.
      + now apply deleteKeys_wellKeyed.
      + rewrite deleteKeys_wordCount, deleteKeys_countEndOfWord, H4
          by assumption.
        destruct (App.searchFrom (root this) keys); lia.
    - repeat split. }
  cbv beta in Hinv. destruct Hinv as (H1 & H2 & H3 & H4).
  split; [|split].
  - intros node Hd. split.
    + intros [Hc He].
      pose proof (noDeadBelow_descendant Hd H1) as Hdead.
      unfold isDead in Hdead. now rewrite Hc, He in Hdead.
    + pose proof (frequenciesOk_descendant Hd H2) as Hf.
      rewrite frequenciesOk_eq in Hf.
      apply andb_true_iff in Hf as [Hf _].
      apply andb_true_iff in Hf as [Hf _]. now apply Z.leb_le.
  - exact H4.
  - rewrite H4. apply countEndOfWord_nonneg.
Qed.

Lemma component_invariants_witness :
  let ops := [Insert (str "cat"); Insert []; Delete (str "ca")] in
  let node := childOrNew (root (fst (trieJsRun newTrie ops))) (str "c") in
  descendant (root (fst (trieJsRun newTrie ops))) node /\
  ~ (children node = [] /\ isEndOfWord node = false) /\
  (0 <= frequency node)%Z.
Proof.
  cbv zeta.
  assert (Hd : descendant
                 (root (fst (trieJsRun newTrie
                               [Insert (str "cat"); Insert [];
                                Delete (str "ca")])))
                 (childOrNew
                    (root (fst (trieJsRun newTrie
                                  [Insert (str "cat"); Insert [];
                                   Delete (str "ca")])))
                    (str "c"))).
  { apply descendant_child with (key := str "c"). left. reflexivity. }
  split; [exact Hd|].
  exact (proj1 (component_invariants
                  [Insert (str "cat"); Insert []; Delete (str "ca")]) _ Hd).
Defined.

(** ** The handlers of the component [App] *)

Lemma toBoolean_string w :
  toBoolean (JSString w) = true -> exists unit rest, w = unit :: rest.
Proof. destruct w as [|unit rest]; [discriminate|]. intros _. eauto. Qed.

Lemma appRun_snoc toLowerCase ops : forall this o,
  fst (appRun toLowerCase this (ops ++ [o])) =
  fst (appStep toLowerCase (fst (appRun toLowerCase this ops)) o).
Proof.
  induction ops as [|o' rest IH]; intros this o.
  - cbn [app appRun fst]. now destruct (appStep toLowerCase this o).
  - cbn [app appRun]. destruct (appStep toLowerCase this o') as [this1 r].
    specialize (IH this1 o).
    destruct (appRun toLowerCase this1 (rest ++ [o])) as [t2 rs2].
    destruct (appRun toLowerCase this1 rest) as [t3 rs3].
    exact IH.
Qed.

Lemma reachable_step toLowerCase this o :
  reachable toLowerCase this ->
  reachable toLowerCase (fst (appStep toLowerCase this o)).
Proof.
  intros [ops <-]. exists (ops ++ [o]). apply appRun_snoc.
Qed.

Lemma handle_invariant toLowerCase trim s e :
  sessionInvariant toLowerCase s ->
  sessionInvariant toLowerCase (AppComponent.handle toLowerCase trim s e).
Proof.
  intros (He & Hd & Hr). destruct e as [text| | |]; cbn [AppComponent.handle].
  - now repeat split.
  - unfold AppComponent.handleInsert.
    destruct (toBoolean (JSString (trim (inputWord s)))) eqn:E;
      [|now repeat split].
    apply toBoolean_string in E as (unit & rest & ->).
    pose proof (reachable_step (Insert (JSString (unit :: rest))) Hr) as Hr'.
    cbn [appStep] in Hr'. rewrite insert_valid in Hr' |- *.
    now repeat split.
  - unfold AppComponent.handleSearch.
    destruct (toBoolean (JSString (trim (inputWord s)))); now repeat split.
  - unfold AppComponent.handleDelete.
    destruct (toBoolean (JSString (trim (inputWord s)))) eqn:E;
      [|now repeat split].
    apply toBoolean_string in E as (unit & rest & ->).
    pose proof (reachable_step (Delete (JSString (unit :: rest))) Hr) as Hr'.
    cbn [appStep] in Hr'. rewrite delete_valid in Hr' |- *.
    now repeat split.
Qed.

(** X14. Whatever the user types and clicks, the component never shows an
    error (the [catch] branches of the handlers are not reached, as the
    handlers pass only non-empty strings to the trie), the drawing is the
    export of the current trie, and the trie is one that calls on a new
    trie build. *)
Theorem session_keeps_invariant (toLowerCase trim : jsstring -> jsstring)
  (events : list AppComponent.event) :
  error (AppComponent.session toLowerCase trim events) = None /\
  diagram (AppComponent.session toLowerCase trim events) =
    App.getD3Data (trie (AppComponent.session toLowerCase trim events)) /\
  reachable toLowerCase (trie (AppComponent.session toLowerCase trim events)).
Proof.
  unfold AppComponent.session.
  assert (H : forall s, sessionInvariant toLowerCase s ->
                sessionInvariant toLowerCase
                  (fold_left (AppComponent.handle toLowerCase trim) events s)).
  { induction events as [|e rest IH]; intros s Hs; [exact Hs|].
    cbn [fold_left]. apply IH. now apply handle_invariant. }
  apply H. repeat split. now exists [].
Qed.

(** X15. Typing a text that is not blank and clicking Insert empties the
    box and stores the trimmed text; typing the same text again and
    clicking Search then reports that the word is found. *)
Theorem insert_click_then_search_click
  (toLowerCase trim : jsstring -> jsstring) (s : AppState) (text : jsstring) :
  trim text <> [] ->
  let inserted :=
    AppComponent.handleInsert toLowerCase trim
      (AppComponent.setInputWord s text) in
  let searched :=
    AppComponent.handleSearch toLowerCase trim
      (AppComponent.setInputWord inserted text) in
  inputWord inserted = [] /\
  trie inserted =
    fst (App.insert toLowerCase (trie s) (JSString (trim text))) /\
  searchResult searched = Some true /\
  trie searched = trie inserted.
Proof.
  intros Hne. cbv zeta.
  unfold AppComponent.handleInsert, AppComponent.handleSearch,
    AppComponent.setInputWord. cbn [inputWord trie].
  destruct (trim text) as [|unit rest] eqn:E; [congruence|].
  cbn [toBoolean]. rewrite insert_valid.
  cbn [AppComponent.visualizeTrie trie inputWord searchResult diagram fst].
  rewrite ?E. cbn [toBoolean searchResult trie].
  repeat split. rewrite search_valid. cbn [root].
  now rewrite insertFrom_search.
Qed.

Lemma insert_click_then_search_click_witness :
  let s := AppComponent.initialState in
  let text := str "Cat" in
  let trim := fun w : jsstring => w in
  trim text <> [] /\
  searchResult
    (AppComponent.handleSearch asciiLower trim
       (AppComponent.setInputWord
          (AppComponent.handleInsert asciiLower trim
             (AppComponent.setInputWord s text)) text)) = Some true.
Proof.
  cbv zeta. split; [discriminate|].
  apply (@insert_click_then_search_click asciiLower (fun w => w)
           AppComponent.initialState (str "Cat")). discriminate.
Defined.

(** X16. Typing a text that is not blank and clicking Delete empties the
    box, clears the shown search result and removes the trimmed text from
    the trie; when the lower-cased text has no surrogate pair, typing it
    again and clicking Search reports that the word is not found. *)
Theorem delete_click_then_search_click
  (toLowerCase trim : jsstring -> jsstring)
  (laws : LowerCaseLaws toLowerCase) (s : AppState) (text : jsstring) :
  trim text <> [] -> noSurrogatePair (toLowerCase (trim text)) ->
  let deleted :=
    AppComponent.handleDelete toLowerCase trim
      (AppComponent.setInputWord s text) in
  let searched :=
    AppComponent.handleSearch toLowerCase trim
      (AppComponent.setInputWord deleted text) in
  inputWord deleted = [] /\ searchResult deleted = None /\
  trie deleted =
    fst (App.delete toLowerCase (trie s) (JSString (trim text))) /\
  searchResult searched = Some false.
Proof.
  intros Hne Hpair. cbv zeta.
  unfold AppComponent.handleDelete, AppComponent.handleSearch,
    AppComponent.setInputWord. cbn [inputWord trie].
  destruct (trim text) as [|unit rest] eqn:E; [congruence|].
  cbn [toBoolean]. rewrite delete_valid.
  cbn [AppComponent.visualizeTrie trie inputWord searchResult diagram fst].
  rewrite ?E. cbn [toBoolean searchResult trie].
  repeat split. rewrite search_valid. cbn [root].
  rewrite <- deletePath_codePoints by assumption.
  now rewrite deleteKeys_search.
Qed.

Lemma delete_click_then_search_click_witness :
  let trim := fun w : jsstring => w in
  let s := AppComponent.handleInsert asciiLower trim
             (AppComponent.setInputWord AppComponent.initialState (str "cat")) in
  trim (str "CAT") <> [] /\
  noSurrogatePair (asciiLower (trim (str "CAT"))) /\
  searchResult
    (AppComponent.handleSearch asciiLower trim
       (AppComponent.setInputWord
          (AppComponent.handleDelete asciiLower trim
             (AppComponent.setInputWord s (str "CAT"))) (str "CAT"))) =
  Some false.
Proof.
  cbv zeta. split; [discriminate|]. split; [reflexivity|].
  apply (@delete_click_then_search_click asciiLower (fun w => w)
           asciiLower_laws _ (str "CAT")); [discriminate|reflexivity].
Defined.
